(** * Phrase-replacement radix tree and translation cache of
      vscode-code-comment-translator

    A shallow embedding of [src/RadixTree.ts] and of the pure parts of
    [src/extension.ts].

    - JavaScript strings are sequences of UTF-16 code units; the model has
      the strings of code units below 256, a character of [string] being
      the code unit of its number.
    - A [Map<string, RadixNode>] is an association list in insertion order
      with unique keys, which is the order [for ... of] enumerates it in.
    - The persisted per-language dictionary (a JS object used as a map) is a
      [gmap string string].
    - [insertRecursive] mutates the node it is given; the embedding returns
      the node after the call.  A split hands the old [children] map over to
      the freshly created node and gives the split node a new map, so no two
      nodes ever share a map and a tree value loses nothing. *)

From stdpp Require Import base list strings gmap.
From Stdlib Require Import Ascii ZArith Lia.
From Stdlib Require DecimalString.

Local Open Scope Z_scope.

(** ** JavaScript string primitives used by the sources *)

Module Js.

(** White space and line terminators, as [String.prototype.trim] and the
    class [\s] of regular expressions know them, among the code units
    below 256: TAB, LF, VT, FF, CR, SPACE and NO-BREAK SPACE (U+00A0).
    The others (U+FEFF, U+1680, U+2000 to U+200A, U+2028, U+2029, U+202F,
    U+205F, U+3000) are code units from 256 on. *)
Definition isWhiteSpace (c : ascii) : bool :=
  let n := Ascii.N_of_ascii c in
  ((9 <=? n)%N && (n <=? 13)%N) || (n =? 32)%N || (n =? 160)%N.

Fixpoint trimStart (s : string) : string :=
  match s with
  | EmptyString => EmptyString
  | String c s' => if isWhiteSpace c then trimStart s' else s
  end.

Fixpoint trimEnd (s : string) : string :=
  match s with
  | EmptyString => EmptyString
  | String c s' =>
      match trimEnd s' with
      | EmptyString => if isWhiteSpace c then EmptyString
                       else String c EmptyString
      | t => String c t
      end
  end.

(** [s.trim()] *)
Definition trim (s : string) : string := trimEnd (trimStart s).

(** [s.split(sep)] for a separator of one character: the result always
    has at least one element, [EmptyString] splits to [[EmptyString]]. *)
Fixpoint split (sep : ascii) (s : string) : list string :=
  match s with
  | EmptyString => [EmptyString]
  | String c s' =>
      if Ascii.eqb c sep then EmptyString :: split sep s'
      else match split sep s' with
           | w :: ws => String c w :: ws
           | [] => [String c EmptyString]
           end
  end.

(** [ws.join(sep)] *)
Fixpoint join (sep : string) (ws : list string) : string :=
  match ws with
  | [] => EmptyString
  | [w] => w
  | w :: ws' => w +:+ sep +:+ join sep ws'
  end.

(** [s.replaceAll(c, EmptyString)] for a pattern of one character. *)
Fixpoint removeAll (c : ascii) (s : string) : string :=
  match s with
  | EmptyString => EmptyString
  | String c' s' =>
      if Ascii.eqb c' c then removeAll c s' else String c' (removeAll c s')
  end.

(** [Map.prototype.set]: the value of an existing key is replaced where
    the key stands, a new key is appended. *)
Fixpoint mapSet {V} (key : string) (v : V) (m : list (string * V))
  : list (string * V) :=
  match m with
  | [] => [(key, v)]
  | (k, v') :: m' =>
      if String.eqb k key then (k, v) :: m' else (k, v') :: mapSet key v m'
  end.

(** [a[i]] on an array, for an integer index: [undefined] is [None]. *)
Definition at_ {A} (a : list A) (i : Z) : option A :=
  if i <? 0 then None else a !! Z.to_nat i.

End Js.

(** ** [RadixTree.ts] *)

#[local] Set Warnings "-register-all,-clear-no-such-hyp".

Inductive RadixNode : Type := mkNode {
  phrase : list string;
  replacement : option string;
  isEndOfWord : bool;
  children : list (string * RadixNode)
}.

(** The tree object is its root node; [newTree] is the constructor. *)
Definition ReplacementRadixTree : Type := RadixNode.

Definition newTree : ReplacementRadixTree := mkNode [] None false [].

Fixpoint findCommonPrefix (a b : list string) : nat :=
  match a, b with
  | x :: a', y :: b' =>
      if String.eqb x y then S (findCommonPrefix a' b') else O
  | _, _ => O
  end.

(** The two splits of [insertRecursive], on a child whose label shares
    [k > 0] words with the remaining words; [replacement'] stands for the
    parameter [replacement], which the field of that name would hide.
    The keys [node.phrase[0]] have the type [string] in the source: the
    labels they are taken from are not empty where [insertRecursive]
    splits, and the branch for an empty label is never taken. *)

(** Case 2: the remaining words end inside the child's label.  Here
    [k < length (phrase child)], so [newNode.phrase[0]] is a word. *)
Definition splitShorter (child : RadixNode) (remainingWords : list string)
    (k : nat) (replacement' : string) : RadixNode :=
  let newNode :=
    mkNode (drop k (phrase child)) (replacement child)
           (isEndOfWord child) (children child) in
  mkNode remainingWords (Some replacement') true
    (match phrase newNode with
     | key :: _ => Js.mapSet key newNode []
     | [] => []
     end).

(** Case 3: label and remaining words part ways after [k] words.  Here
    [k] is less than both lengths, so both keys are words. *)
Definition splitBoth (child : RadixNode) (remainingWords : list string)
    (k : nat) (replacement' : string) : RadixNode :=
  let splitNode :=
    mkNode (drop k (phrase child)) (replacement child)
           (isEndOfWord child) (children child) in
  let newNode := mkNode (drop k remainingWords) (Some replacement') true [] in
  mkNode (take k remainingWords) None false
    (match phrase splitNode, phrase newNode with
     | key1 :: _, key2 :: _ =>
         Js.mapSet key2 newNode (Js.mapSet key1 splitNode [])
     | _, _ => []
     end).

(** The [for (const [key, child] of node.children)] loop of
    [insertRecursive]: the first child whose label shares a word with
    [remainingWords] is replaced, under its key and at its place, by its
    state after the call; [None] when the loop falls through.  [recurse]
    is the recursive call of case 1. *)
Definition insertIntoChildren (recurse : RadixNode -> nat -> RadixNode)
    (remainingWords : list string) (replacement' : string)
  : list (string * RadixNode) -> option (list (string * RadixNode)) :=
  fix loop (cs : list (string * RadixNode)) :=
    match cs with
    | [] => None
    | (key, child) :: rest =>
        let commonPrefixLength :=
          findCommonPrefix (phrase child) remainingWords in
        if (0 <? commonPrefixLength)%nat then
          Some ((key,
                 if (commonPrefixLength =? length (phrase child))%nat then
                   recurse child commonPrefixLength
                 else if (commonPrefixLength =? length remainingWords)%nat then
                   splitShorter child remainingWords commonPrefixLength
                                replacement'
                 else
                   splitBoth child remainingWords commonPrefixLength
                             replacement') :: rest)
        else
          match loop rest with
          | Some rest' => Some ((key, child) :: rest')
          | None => None
          end
    end.

(** [insertRecursive(node, words, index, replacement)], with
    [index <= words.length] as on every call that [insert] gives rise to. *)
Fixpoint insertRecursive (node : RadixNode) (words : list string)
    (index : nat) (replacement' : string) {struct node} : RadixNode :=
  match drop index words with
  | [] =>
      mkNode (phrase node) (Some replacement') true (children node)
  | firstWord :: _ =>
      let remainingWords := drop index words in
      match
        insertIntoChildren
          (fun child k => insertRecursive child words (index + k) replacement')
          remainingWords replacement' (children node)
      with
      | Some children' =>
          mkNode (phrase node) (replacement node) (isEndOfWord node) children'
      | None =>
          let newNode := mkNode remainingWords (Some replacement') true [] in
          mkNode (phrase node) (replacement node) (isEndOfWord node)
                 (Js.mapSet firstWord newNode (children node))
      end
  end.

(** [phrase.trim().split(" ")] *)
Definition tokenize (phrase : string) : list string :=
  Js.split " "%char (Js.trim phrase).

Definition insert (tree : ReplacementRadixTree) (phrase : string)
    (replacement' : string) : ReplacementRadixTree :=
  let words := tokenize phrase in
  insertRecursive tree words 0 replacement'.

(** The inner [for] loop of [findLongestMatchRecursive]: does
    [phrase[i] === words[index + i]] hold for every [i]? *)
Fixpoint phraseMatches (phrase : list string) (words : list string)
    (index : Z) : bool :=
  match phrase with
  | [] => true
  | w :: phrase' =>
      match Js.at_ words index with
      | Some w' => String.eqb w w' && phraseMatches phrase' words (index + 1)
      | None => false
      end
  end.

(** A result [[matchLength, node.replacement!]]; the second component is
    [None] when the field is [undefined]. *)
Definition Match : Type := Z * option string.

(** [if (match && (!bestMatch || match[0] > bestMatch[0])) bestMatch = match] *)
Definition better (bestMatch match' : option Match) : option Match :=
  match match', bestMatch with
  | Some m, None => Some m
  | Some m, Some b => if b.1 <? m.1 then Some m else bestMatch
  | None, _ => bestMatch
  end.

(** The [for (const child of node.children.values())] loop. *)
Definition findInChildren (recurse : RadixNode -> option Match)
    (words : list string) (index : Z)
  : list (string * RadixNode) -> option Match -> option Match :=
  fix loop (cs : list (string * RadixNode)) (bestMatch : option Match) :=
    match cs with
    | [] => bestMatch
    | (_, child) :: rest =>
        if Z.of_nat (length words) <? index + Z.of_nat (length (phrase child))
        then loop rest bestMatch
        else if phraseMatches (phrase child) words index
        then loop rest (better bestMatch (recurse child))
        else loop rest bestMatch
    end.

Fixpoint findLongestMatchRecursive (node : RadixNode) (words : list string)
    (index : Z) (matchLength : Z) {struct node} : option Match :=
  let own :=
    if isEndOfWord node then Some (matchLength, replacement node) else None in
  if Z.of_nat (length words) <=? index then own
  else
    findInChildren
      (fun child =>
         findLongestMatchRecursive child words
           (index + Z.of_nat (length (phrase child)))
           (matchLength + Z.of_nat (length (phrase child))))
      words index (children node) own.

Definition findLongestMatch (tree : ReplacementRadixTree)
    (words : list string) (startIndex : Z) : option Match :=
  findLongestMatchRecursive tree words startIndex 0.

(** A tree after a sequence of [insert] calls on a fresh one. *)
Definition build (calls : list (string * string)) : ReplacementRadixTree :=
  foldl (fun tree call => insert tree call.1 call.2) newTree calls.

(** ** What a tree stores *)

(** The marker of the node itself, as an entry with an empty path. *)
Definition ownEntry (n : RadixNode) : list (list string * option string) :=
  if isEndOfWord n then [([], replacement n)] else [].

(** [entries n]: for every end-of-word node at or below [n], the labels on
    the way from [n] (its own label left out) to that node, concatenated,
    and the replacement the node holds. *)
Fixpoint entries (n : RadixNode) : list (list string * option string) :=
  ownEntry n ++
  (fix below (cs : list (string * RadixNode)) :=
     match cs with
     | [] => []
     | (_, c) :: cs' =>
         map (fun e => (phrase c ++ e.1, e.2)) (entries c) ++ below cs'
     end) (children n).

(** [endNodes n]: the same with the label of [n] in front; on the root,
    the root-to-node label concatenation of every end-of-word node. *)
Definition endNodes (n : RadixNode) : list (list string * option string) :=
  map (fun e => (phrase n ++ e.1, e.2)) (entries n).

Definition entriesBelow (cs : list (string * RadixNode))
  : list (list string * option string) :=
  cs ≫= (fun kc => endNodes kc.2).

(** All nodes of a tree, the root first. *)
Fixpoint nodes (n : RadixNode) : list RadixNode :=
  n :: (fix below (cs : list (string * RadixNode)) :=
          match cs with
          | [] => []
          | (_, c) :: cs' => nodes c ++ below cs'
          end) (children n).

(** The first words of the labels of a children map. *)
Definition firstWords (cs : list (string * RadixNode)) : list (option string) :=
  map (fun kc => head (phrase kc.2)) cs.

(** The shape [insertRecursive] maintains: every child is filed under the
    first word of its label, which is not empty; the marker and the
    replacement go together. *)
Inductive wf : RadixNode -> Prop :=
| wf_node ph rp e cs :
    (e = true <-> is_Some rp) ->
    NoDup cs.*1 ->
    Forall (fun kc => head (phrase kc.2) = Some kc.1 /\ wf kc.2) cs ->
    wf (mkNode ph rp e cs).

(** ** [extension.ts] *)

(** [a.slice(start, end)] for integer bounds: negative bounds count from
    the end, bounds are clamped to the array. *)
Definition slice {A} (a : list A) (start end' : Z) : list A :=
  let len := Z.of_nat (length a) in
  let from := if start <? 0 then Z.max (len + start) 0 else Z.min start len in
  let to := if end' <? 0 then Z.max (len + end') 0 else Z.min end' len in
  take (Z.to_nat (to - from)) (drop (Z.to_nat from) a).

(** [getRandomWordsFromWords(words, wordCount)]; [randomIndex] is the value
    that [getRandomNumberInRange(0, words.length - 1)] draws.  Both [null]
    and [undefined] are [None]. *)
Definition getRandomWordsFromWords (words : list string) (wordCount : Z)
    (randomIndex : Z) : option string :=
  if wordCount <? 1 then None
  else
    let randomWord := Js.at_ words randomIndex in
    if wordCount =? 1 then randomWord
    else
      let wordsAfterRandomWord :=
        Z.of_nat (length words) - randomIndex - 1 in
      let wordsAfterRandomWordCalculated :=
        if wordCount <? wordsAfterRandomWord then wordCount
        else wordsAfterRandomWord in
      Some (Js.join " "
              (slice words randomIndex
                     (randomIndex + wordsAfterRandomWordCalculated))).

(** The words of a sample, as [handleDocumentUpdate] hands them to
    [findLongestMatch]: [randomWord.split(" ")]. *)
Definition sampleWords (randomWord : string) : list string :=
  Js.split " "%char randomWord.

(** A range of the document, by its start and end offsets. *)
Definition Range : Type := (Z * Z)%type.

(** An entry of [wordsToTranslate]. *)
Record Sample : Type := mkSample {
  randomWord : string;
  range : Range
}.

(** An entry of [decorations]; [contentText] is the text that the
    decoration type shows after the range. *)
Record Decoration : Type := mkDecoration {
  decoratedWord : string;
  contentText : string;
  decoratedRange : Range
}.

(** What one run of [handleDocumentUpdate] works on: the tree, the
    dictionary that [context.globalState] holds for the target language,
    and the decorations collected so far. *)
Record Cycle : Type := mkCycle {
  tree : ReplacementRadixTree;
  globalState : gmap string string;
  decorations : list Decoration
}.

(** Hydration: [tree.insert(key, value)] for the entries of the saved
    dictionary, in the order in which [Object.entries] lists them. *)
Definition hydrate (savedEntries : list (string * string))
  : ReplacementRadixTree :=
  foldl (fun tree entry => insert tree entry.1 entry.2) newTree savedEntries.

(** [translated.replaceAll("'", "").split(",").map((word) => word.trim())] *)
Definition parseTranslated (translated : string) : list string :=
  Js.trim <$> Js.split ","%char (Js.removeAll "'"%char translated).

(** The body of the [forEach] callback for a translation whose index has
    a sample. *)
Definition applyTranslation (cycle : Cycle) (sample : Sample)
    (translation : string) : Cycle :=
  mkCycle
    (insert (tree cycle) (randomWord sample) translation)
    (<[randomWord sample := translation]> (globalState cycle))
    (decorations cycle ++
     [mkDecoration (randomWord sample) ("] " +:+ translation) (range sample)]).

(** [translatedWords.forEach((translation, index) => ...)], from [index]
    on: a translation without a sample at its index is passed over. *)
Fixpoint forEachTranslation (wordsToTranslate : list Sample)
    (translatedWords : list string) (index : nat) (cycle : Cycle) : Cycle :=
  match translatedWords with
  | [] => cycle
  | translation :: rest =>
      forEachTranslation wordsToTranslate rest (S index)
        (match wordsToTranslate !! index with
         | None => cycle
         | Some sample => applyTranslation cycle sample translation
         end)
  end.

(** The [if (wordsToTranslate.length > 0)] block of [handleDocumentUpdate];
    [translated] is what [await translateText(...)] yields, [None] for
    [undefined]. *)
Definition translateBatch (cycle : Cycle) (wordsToTranslate : list Sample)
    (translated : option string) : Cycle :=
  if (0 <? length wordsToTranslate)%nat then
    match translated with
    | None => cycle
    | Some EmptyString => cycle
    | Some translated =>
        let translatedWords := parseTranslated translated in
        if (length translatedWords =? 0)%nat then cycle
        else forEachTranslation wordsToTranslate translatedWords 0 cycle
    end
  else cycle.

(** The dictionary after merging the pairs one by one,
    [{...saved, [phrase]: replacement}]. *)
Definition mergeAll (saved : gmap string string)
    (pairs : list (string * string)) : gmap string string :=
  foldl (fun dictionary pair => <[pair.1 := pair.2]> dictionary) saved pairs.

(** A string of white space only (the empty string is one). *)
Fixpoint isBlank (s : string) : bool :=
  match s with
  | EmptyString => true
  | String c s' => Js.isWhiteSpace c && isBlank s'
  end.

Fixpoint hasNoWhiteSpace (s : string) : bool :=
  match s with
  | EmptyString => true
  | String c s' => negb (Js.isWhiteSpace c) && hasNoWhiteSpace s'
  end.

(** A word as the comment splitter [split(/\s+/).filter(Boolean)] of
    [handleDocumentUpdate] yields them: not empty, no white space in it. *)
Definition isWord (s : string) : bool :=
  match s with
  | EmptyString => false
  | String _ _ => hasNoWhiteSpace s
  end.

(** ** The tree as the object graph that the code walks

    For what a call does to the nodes themselves, the nodes are objects in
    a store, addressed by references, and a method is a computation that
    may read and write the store.  An object graph need not be a tree, so
    the recursion carries fuel; [None] is a dangling reference or the end
    of the fuel. *)

Module Heap.

Definition ref : Type := nat.

Record RadixObject : Type := mkObject {
  o_phrase : list string;
  o_replacement : option string;
  o_isEndOfWord : bool;
  o_children : list (string * ref)
}.

Definition Store : Type := gmap ref RadixObject.

Definition Run (A : Type) : Type := Store -> option (A * Store).

Definition ret {A} (a : A) : Run A := fun h => Some (a, h).

Definition bind {A B} (m : Run A) (k : A -> Run B) : Run B :=
  fun h => match m h with
           | Some (a, h') => k a h'
           | None => None
           end.

Definition fail {A} : Run A := fun _ => None.

(** Reading the fields of the object behind a reference. *)
Definition load (r : ref) : Run RadixObject :=
  fun h => match h !! r with
           | Some o => Some (o, h)
           | None => None
           end.

(** Assigning to the fields of the object behind a reference. *)
Definition store (r : ref) (o : RadixObject) : Run unit :=
  fun h => Some (tt, <[r := o]> h).

Notation "'let*' x := m 'in' k" := (bind m (fun x => k))
  (at level 10, x name, m at level 100, k at level 200).

(** The [for (const child of node.children.values())] loop. *)
Definition findInChildren
    (recurse : ref -> RadixObject -> Run (option Match))
    (words : list string) (index : Z)
  : list (string * ref) -> option Match -> Run (option Match) :=
  fix loop (cs : list (string * ref)) (bestMatch : option Match) :=
    match cs with
    | [] => ret bestMatch
    | (_, childRef) :: rest =>
        let* child := load childRef in
        if Z.of_nat (length words)
           <? index + Z.of_nat (length (o_phrase child))
        then loop rest bestMatch
        else if phraseMatches (o_phrase child) words index
        then let* match' := recurse childRef child in
             loop rest (better bestMatch match')
        else loop rest bestMatch
    end.

Fixpoint findLongestMatchRecursive (fuel : nat) (node : ref)
    (words : list string) (index : Z) (matchLength : Z)
  : Run (option Match) :=
  match fuel with
  | O => fail
  | S fuel' =>
      let* n := load node in
      let own :=
        if o_isEndOfWord n then Some (matchLength, o_replacement n)
        else None in
      if Z.of_nat (length words) <=? index then ret own
      else
        findInChildren
          (fun childRef child =>
             findLongestMatchRecursive fuel' childRef words
               (index + Z.of_nat (length (o_phrase child)))
               (matchLength + Z.of_nat (length (o_phrase child))))
          words index (o_children n) own
  end.

Definition findLongestMatch (fuel : nat) (root : ref) (words : list string)
    (startIndex : Z) : Run (option Match) :=
  findLongestMatchRecursive fuel root words startIndex 0.

(** The object behind [r] and the objects below it are the tree [t]. *)
Inductive represents (h : Store) : ref -> RadixNode -> Prop :=
| represents_node r o t :
    h !! r = Some o ->
    o_phrase o = phrase t ->
    o_replacement o = replacement t ->
    o_isEndOfWord o = isEndOfWord t ->
    Forall2 (fun kr kc => kr.1 = kc.1 /\ represents h kr.2 kc.2)
            (o_children o) (children t) ->
    represents h r t.

End Heap.

(** The number of nodes on the longest way down from [n]. *)
Fixpoint height (n : RadixNode) : nat :=
  S ((fix below (cs : list (string * RadixNode)) :=
        match cs with
        | [] => O
        | (_, c) :: cs' => Nat.max (height c) (below cs')
        end) (children n)).

(** A tree of three nodes and its objects in a store. *)
Definition exampleTree : ReplacementRadixTree :=
  build [("one cat", "un gato"); ("one cat and two", "un gato y dos")].

Definition exampleStore : Heap.Store :=
  <[0%nat := Heap.mkObject [] None false [("one", 1%nat)]]>
  (<[1%nat := Heap.mkObject ["one"; "cat"] (Some "un gato") true
                            [("and", 2%nat)]]>
   (<[2%nat := Heap.mkObject ["and"; "two"] (Some "un gato y dos") true []]>
    ∅)).

(** ** Notions used in the statements *)

(** What replacing a child [c] by [c'] has to achieve when the words
    [key], counted from the parent, are stored with [r]. *)
Definition childUpdate (c c' : RadixNode) (key : list string) (r : string)
  : Prop :=
  head (phrase c') = head (phrase c) /\ wf c' /\
  forall ws v, (ws, v) ∈ endNodes c' <->
    (ws = key /\ v = Some r) \/ (ws <> key /\ (ws, v) ∈ endNodes c).

(** The effect of an insertion on what a node stores below itself. *)
Definition stores (n n' : RadixNode) (key : list string) (r : string) : Prop :=
  wf n' /\ phrase n' = phrase n /\
  forall ws v, (ws, v) ∈ entries n' <->
    (ws = key /\ v = Some r) \/ (ws <> key /\ (ws, v) ∈ entries n).

(** [res] is a longest entry of [es] that is a prefix of [rest], counted
    from [m] words already matched; [None] when no entry is one. *)
Definition longestMatch (es : list (list string * option string))
    (rest : list string) (m : Z) (res : option Match) : Prop :=
  match res with
  | Some (m', v) =>
      exists ws, (ws, v) ∈ es /\ ws `prefix_of` rest /\
        m' = m + Z.of_nat (length ws) /\
        forall ws' v', (ws', v') ∈ es -> ws' `prefix_of` rest ->
                       (length ws' <= length ws)%nat
  | None => forall ws v, (ws, v) ∈ es -> ~ ws `prefix_of` rest
  end.

(** The replacement of the last call whose phrase has the tokens [key]. *)
Definition latest (calls : list (string * string)) (key : list string)
  : option string :=
  foldl (fun found call =>
           if decide (tokenize call.1 = key) then Some call.2 else found)
        None calls.

(** [r] was inserted for the tokens [key], and no later call has them. *)
Definition mostRecent (calls : list (string * string)) (key : list string)
    (r : string) : Prop :=
  exists before p after,
    calls = before ++ (p, r) :: after /\ tokenize p = key /\
    Forall (fun call => tokenize call.1 <> key) after.

(** The slice of [ws] that starts at index [i] begins with [key]:
    [ws.slice(i, i + key.length)] is [key]. *)
Definition occursAt (key ws : list string) (i : Z) : Prop :=
  0 <= i /\ key `prefix_of` drop (Z.to_nat i) ws.

(** ** [RadixTree.ts]: [print] *)

(** ["  ".repeat(level)] *)
Fixpoint indentation (level : nat) : string :=
  match level with
  | O => EmptyString
  | S level' => "  " +:+ indentation level'
  end.

(** [`${node.replacement}`] *)
Definition showReplacement (r : option string) : string :=
  match r with
  | Some text => text
  | None => "undefined"
  end.

(** [printRecursive(node, level)], as the lines it hands to
    [console.log], in order. *)
Fixpoint printRecursive (node : RadixNode) (level : nat) : list string :=
  let indent := indentation level in
  (indent +:+ "phrase: [" +:+ Js.join " " (phrase node) +:+ "]") ::
  (if isEndOfWord node
   then [indent +:+ "replacement: " +:+ showReplacement (replacement node)]
   else []) ++
  (fix below (cs : list (string * RadixNode)) :=
     match cs with
     | [] => []
     | (_, child) :: cs' => printRecursive child (S level) ++ below cs'
     end) (children node).

Definition print (tree : ReplacementRadixTree) : list string :=
  printRecursive tree 0.

(** ** [extension.ts]: from a comment to its samples *)

(** [s.split(/\s+/)]: the pieces between the maximal runs of white space;
    [inRun] tells that the character before was white space. *)
Fixpoint splitWhiteSpaceFrom (s : string) (inRun : bool) : list string :=
  match s with
  | EmptyString => [EmptyString]
  | String c s' =>
      if Js.isWhiteSpace c then
        if inRun then splitWhiteSpaceFrom s' true
        else EmptyString :: splitWhiteSpaceFrom s' true
      else
        match splitWhiteSpaceFrom s' false with
        | w :: ws => String c w :: ws
        | [] => [String c EmptyString]
        end
  end.

Definition splitWhiteSpace (s : string) : list string :=
  splitWhiteSpaceFrom s false.

(** [commentContent.split(/\s+/).filter(Boolean)] *)
Definition commentWords (commentContent : string) : list string :=
  filter (fun w => w <> EmptyString) (splitWhiteSpace commentContent).

(** [line.replace(/^\s*\*/, "")] *)
Definition stripLeadingStar (line : string) : string :=
  match Js.trimStart line with
  | String "*" rest => rest
  | _ => line
  end.

(** The cleaning of a block comment:
    [split("\n").map((line) => line.replace(/^\s*\*/, "").trim()).join(" ")] *)
Definition cleanMultiLineComment (multiLineComment : string) : string :=
  Js.join " "
    ((fun line => Js.trim (stripLeadingStar line)) <$>
     Js.split "010" multiLineComment).

(** [`${n}`] for an integer [n]. *)
Definition showNumber (n : Z) : string :=
  DecimalString.NilZero.string_of_int (Z.to_int n).

(** What [handleDocumentUpdate] does with a sample and its range: with a
    translation in the tree, a decoration (whose text is built from
    [translation[0]]); without one, an entry of [wordsToTranslate]. *)
Definition classifySample (cycle : Cycle) (wordsToTranslate : list Sample)
    (randomWord' : string) (range' : Range) : Cycle * list Sample :=
  match findLongestMatch (tree cycle) (sampleWords randomWord') 0 with
  | Some translation =>
      (mkCycle (tree cycle) (globalState cycle)
         (decorations cycle ++
          [mkDecoration randomWord' ("] " +:+ showNumber translation.1)
                        range']),
       wordsToTranslate)
  | None =>
      (cycle, wordsToTranslate ++ [mkSample randomWord' range'])
  end.

(** ** [extension.ts]: the listener of [activate] *)

(** The callback given to [onDidOpenTextDocument]: [activeTextEditor] is
    the URI of the active editor's document, when there is an active
    editor.  The result is the set [processedDocuments] afterwards and the
    document handed to [debouncedHandler], if any. *)
Definition onDidOpenTextDocument (processedDocuments : gset string)
    (activeTextEditor : option string) : gset string * option string :=
  match activeTextEditor with
  | None => (processedDocuments, None)
  | Some uri =>
      if decide (uri ∈ processedDocuments) then (processedDocuments, None)
      else ({[uri]} ∪ processedDocuments, Some uri)
  end.

(** The documents handed to [debouncedHandler] over a sequence of open
    events, in order, and the set at the end. *)
Fixpoint openEvents (processedDocuments : gset string)
    (events : list (option string)) : gset string * list string :=
  match events with
  | [] => (processedDocuments, [])
  | activeTextEditor :: events' =>
      let '(processed', handed) :=
        onDidOpenTextDocument processedDocuments activeTextEditor in
      let '(final, rest) := openEvents processed' events' in
      (final, match handed with
              | Some uri => uri :: rest
              | None => rest
              end)
  end.

(** The characters of a string. *)
Fixpoint chars (s : string) : list ascii :=
  match s with
  | EmptyString => []
  | String c s' => c :: chars s'
  end.

(** ** Levels of the nodes *)

(** The nodes of a tree with their levels, the root first: [nodes] with
    the level at which [printRecursive] is called on each node. *)
Fixpoint nodesAt (n : RadixNode) (level : nat) : list (nat * RadixNode) :=
  (level, n) ::
  (fix below (cs : list (string * RadixNode)) :=
     match cs with
     | [] => []
     | (_, c) :: cs' => nodesAt c (S level) ++ below cs'
     end) (children n).

(** The node reached from [n] by taking, at each step, the child at the
    given position of the children map. *)
Fixpoint descend (n : RadixNode) (path : list nat) : option RadixNode :=
  match path with
  | [] => Some n
  | i :: path' =>
      match children n !! i with
      | Some (_, c) => descend c path'
      | None => None
      end
  end.

(** The lines that belong to one node at a level: its label and, at the
    end of a phrase, its replacement, behind two spaces per level. *)
Definition nodeLines (level : nat) (n : RadixNode) : list string :=
  (indentation level +:+ "phrase: [" +:+ Js.join " " (phrase n) +:+ "]") ::
  (if isEndOfWord n
   then [indentation level +:+ "replacement: "
           +:+ showReplacement (replacement n)]
   else []).

(** * Properties *)

(** ** The examples of the specification *)

Example longest_match_wins :
  findLongestMatch
    (build [("one cat", "un gato"); ("one cat and two", "un gato y dos")])
    ["one"; "cat"; "and"; "two"; "please"] 0
  = Some (4, Some "un gato y dos").
Proof. reflexivity. Qed.

Example shorter_available_match :
  findLongestMatch
    (build [("one cat", "un gato"); ("one cat and two", "un gato y dos")])
    ["one"; "cat"; "is"; "here"] 0
  = Some (2, Some "un gato").
Proof. reflexivity. Qed.

Example no_match :
  findLongestMatch
    (build [("one cat", "un gato"); ("one cat and two", "un gato y dos")])
    ["totally"; "different"; "words"] 0
  = None.
Proof. reflexivity. Qed.

Example split_case3 :
  build [("big cat", "gato grande"); ("big dog", "perro grande")]
  = mkNode [] None false
      [("big", mkNode ["big"] None false
         [("cat", mkNode ["cat"] (Some "gato grande") true []);
          ("dog", mkNode ["dog"] (Some "perro grande") true [])])].
Proof. reflexivity. Qed.

(** ** Nodes and entries *)

(** Structural induction on nodes, through the children map. *)
Lemma RadixNode_ind' (P : RadixNode -> Prop) :
  (forall ph rp e cs, Forall (fun kc => P kc.2) cs -> P (mkNode ph rp e cs)) ->
  forall n, P n.
Proof.
  intros step. fix IH 1. intros [ph rp e cs]. apply step.
  induction cs as [|[k c] cs IHcs]; constructor; [apply IH | apply IHcs].
Qed.

Lemma entries_eq n : entries n = ownEntry n ++ entriesBelow (children n).
Proof.
  destruct n as [ph rp e cs]; cbn [entries children]. f_equal.
  induction cs as [|[k c] cs IH]; [done|].
  rewrite IH. reflexivity.
Qed.

Lemma nodes_eq n : nodes n = n :: (children n ≫= fun kc => nodes kc.2).
Proof.
  destruct n as [ph rp e cs]; cbn [nodes children]. f_equal.
  induction cs as [|[k c] cs IH]; [done|].
  rewrite IH. reflexivity.
Qed.

Lemma wf_inv n :
  wf n ->
  (isEndOfWord n = true <-> is_Some (replacement n)) /\
  NoDup (children n).*1 /\
  Forall (fun kc => head (phrase kc.2) = Some kc.1 /\ wf kc.2) (children n).
Proof. by inversion 1. Qed.

Lemma wf_intro n :
  (isEndOfWord n = true <-> is_Some (replacement n)) ->
  NoDup (children n).*1 ->
  Forall (fun kc => head (phrase kc.2) = Some kc.1 /\ wf kc.2) (children n) ->
  wf n.
Proof. destruct n; by constructor. Qed.

Lemma wf_newTree : wf newTree.
Proof. constructor; [|constructor|constructor]. split; [done|by intros []]. Qed.

(** ** Common prefixes *)

Lemma findCommonPrefix_le_l a b : (findCommonPrefix a b <= length a)%nat.
Proof.
  revert b; induction a as [|x a IH]; intros [|y b]; simpl; try lia.
  destruct (String.eqb x y); [specialize (IH b)|]; lia.
Qed.

Lemma findCommonPrefix_le_r a b : (findCommonPrefix a b <= length b)%nat.
Proof.
  revert b; induction a as [|x a IH]; intros [|y b]; simpl; try lia.
  destruct (String.eqb x y); [specialize (IH b)|]; lia.
Qed.

Lemma findCommonPrefix_take a b :
  take (findCommonPrefix a b) a = take (findCommonPrefix a b) b.
Proof.
  revert b; induction a as [|x a IH]; intros [|y b]; simpl; try done.
  destruct (String.eqb_spec x y) as [->|]; [|done].
  simpl. by rewrite IH.
Qed.

Lemma findCommonPrefix_stop a b :
  (findCommonPrefix a b < length a)%nat ->
  (findCommonPrefix a b < length b)%nat ->
  head (drop (findCommonPrefix a b) a) <> head (drop (findCommonPrefix a b) b).
Proof.
  revert b; induction a as [|x a IH]; intros [|y b]; simpl; try lia.
  destruct (String.eqb_spec x y) as [->|]; simpl.
  - intros; apply IH; lia.
  - congruence.
Qed.

Lemma findCommonPrefix_pos a b :
  (0 < findCommonPrefix a b)%nat <->
  exists w, head a = Some w /\ head b = Some w.
Proof.
  destruct a as [|x a], b as [|y b]; simpl;
    try (split; [lia | intros (w & ? & ?); congruence]).
  destruct (String.eqb_spec x y) as [->|]; split; try lia.
  - eauto.
  - intros (w & ? & ?); congruence.
Qed.

Lemma findCommonPrefix_full_l a b :
  findCommonPrefix a b = length a -> a `prefix_of` b.
Proof.
  intros E. exists (drop (length a) b).
  rewrite <- (take_drop (length a) b) at 1. f_equal.
  by rewrite <- E, <- findCommonPrefix_take, E, firstn_all.
Qed.

Lemma findCommonPrefix_full_r a b :
  findCommonPrefix a b = length b -> b `prefix_of` a.
Proof.
  intros E. exists (drop (length b) a).
  rewrite <- (take_drop (length b) a) at 1. f_equal.
  by rewrite <- E, findCommonPrefix_take, E, firstn_all.
Qed.

(** ** The children map *)

Lemma mapSet_fresh {V} key (v : V) m :
  key ∉ m.*1 -> Js.mapSet key v m = m ++ [(key, v)].
Proof.
  induction m as [|[k v'] m IH]; simpl; [done|].
  rewrite not_elem_of_cons. intros [Hk Hm].
  destruct (String.eqb_spec k key) as [->|]; [done|]. by rewrite IH.
Qed.

Lemma entriesBelow_app cs1 cs2 :
  entriesBelow (cs1 ++ cs2) = entriesBelow cs1 ++ entriesBelow cs2.
Proof. apply bind_app. Qed.

Lemma entriesBelow_cons k c cs :
  entriesBelow ((k, c) :: cs) = endNodes c ++ entriesBelow cs.
Proof. done. Qed.

Lemma elem_of_endNodes ws v c :
  (ws, v) ∈ endNodes c <->
  exists ws', ws = phrase c ++ ws' /\ (ws', v) ∈ entries c.
Proof.
  unfold endNodes. rewrite list_elem_of_fmap. split.
  - intros ([ws' v'] & [= -> ->] & ?); eauto.
  - intros (ws' & -> & ?). by exists (ws', v).
Qed.

Lemma elem_of_entriesBelow ws v cs :
  (ws, v) ∈ entriesBelow cs <->
  exists kc, kc ∈ cs /\ (ws, v) ∈ endNodes kc.2.
Proof.
  unfold entriesBelow. rewrite list_elem_of_bind. naive_solver.
Qed.

Lemma elem_of_ownEntry ws v n :
  (ws, v) ∈ ownEntry n <->
  ws = [] /\ isEndOfWord n = true /\ v = replacement n.
Proof.
  unfold ownEntry. destruct (isEndOfWord n).
  - rewrite list_elem_of_singleton. naive_solver.
  - rewrite elem_of_nil. naive_solver.
Qed.

(** An entry reached through a child starts with the first word of the
    child's label. *)
Lemma endNodes_head ws v c w :
  head (phrase c) = Some w -> (ws, v) ∈ endNodes c -> head ws = Some w.
Proof.
  intros Hw (ws' & -> & _)%elem_of_endNodes.
  destruct (phrase c); naive_solver.
Qed.

Lemma entriesBelow_head ws v cs :
  Forall (fun kc => head (phrase kc.2) = Some kc.1 /\ wf kc.2) cs ->
  (ws, v) ∈ entriesBelow cs -> exists w, head ws = Some w /\ w ∈ cs.*1.
Proof.
  intros Hcs ([k c] & Hin & Hws)%elem_of_entriesBelow.
  rewrite Forall_forall in Hcs. destruct (Hcs _ Hin) as [Hk _].
  exists k. split; [by eapply endNodes_head|].
  apply list_elem_of_fmap. by exists (k, c).
Qed.

(** ** Insertion *)

Lemma insertRecursive_eq n words index r :
  insertRecursive n words index r =
  match drop index words with
  | [] => mkNode (phrase n) (Some r) true (children n)
  | firstWord :: _ =>
      match
        insertIntoChildren
          (fun child k => insertRecursive child words (index + k) r)
          (drop index words) r (children n)
      with
      | Some children' =>
          mkNode (phrase n) (replacement n) (isEndOfWord n) children'
      | None =>
          mkNode (phrase n) (replacement n) (isEndOfWord n)
            (Js.mapSet firstWord (mkNode (drop index words) (Some r) true [])
                       (children n))
      end
  end.
Proof. by destruct n. Qed.

Lemma insertIntoChildren_None recurse rem r cs :
  insertIntoChildren recurse rem r cs = None ->
  Forall (fun kc => findCommonPrefix (phrase kc.2) rem = 0%nat) cs.
Proof.
  induction cs as [|[k c] cs IH]; simpl; [by constructor|].
  destruct (Nat.ltb_spec 0 (findCommonPrefix (phrase c) rem)); [done|].
  destruct (insertIntoChildren recurse rem r cs); [done|].
  intros _. constructor; [simpl; lia | by apply IH].
Qed.

Lemma insertIntoChildren_Some recurse rem r cs cs' :
  insertIntoChildren recurse rem r cs = Some cs' ->
  exists pre key child post,
    cs = pre ++ (key, child) :: post /\
    Forall (fun kc => findCommonPrefix (phrase kc.2) rem = 0%nat) pre /\
    (0 < findCommonPrefix (phrase child) rem)%nat /\
    cs' = pre ++
      (key,
       let k := findCommonPrefix (phrase child) rem in
       if (k =? length (phrase child))%nat then recurse child k
       else if (k =? length rem)%nat then splitShorter child rem k r
       else splitBoth child rem k r) :: post.
Proof.
  revert cs'; induction cs as [|[k c] cs IH]; simpl; [done|]. intros cs'.
  destruct (Nat.ltb_spec 0 (findCommonPrefix (phrase c) rem)).
  - intros [= <-]. by exists [], k, c, cs.
  - destruct (insertIntoChildren recurse rem r cs) as [rest'|]; [|done].
    intros [= <-]. destruct (IH _ eq_refl) as (pre & key & child & post & -> & ? & ? & ->).
    exists ((k, c) :: pre), key, child, post. split_and!; try done.
    constructor; [simpl; lia | done].
Qed.

Lemma entries_mk ph rp e cs :
  entries (mkNode ph rp e cs) =
  (if e then [([], rp)] else []) ++ entriesBelow cs.
Proof. by rewrite entries_eq. Qed.

Lemma endNodes_relabel (l1 l2 : list string) c :
  phrase c = l1 ++ l2 ->
  map (fun e : list string * option string => (l1 ++ e.1, e.2))
    (endNodes (mkNode l2 (replacement c) (isEndOfWord c) (children c)))
  = endNodes c.
Proof.
  intros Hl. unfold endNodes. rewrite entries_mk, <- (entries_eq c) at 1.
  rewrite <- list_fmap_compose. apply list_fmap_ext.
  intros _ [ws v] _; simpl. by rewrite Hl, app_assoc.
Qed.

Lemma endNodes_splitShorter c rem k r :
  drop k (phrase c) <> [] -> phrase c = rem ++ drop k (phrase c) ->
  endNodes (splitShorter c rem k r) = (rem, Some r) :: endNodes c.
Proof.
  intros Hne Hl. unfold splitShorter. cbn [phrase].
  destruct (drop k (phrase c)) as [|key suffix] eqn:Hdrop; [done|].
  cbn [Js.mapSet]. unfold endNodes at 1. rewrite entries_mk. cbn [phrase].
  rewrite entriesBelow_cons. unfold entriesBelow at 1. cbn [mbind list_bind].
  rewrite app_nil_r. cbn [app map fst snd]. rewrite app_nil_r. f_equal.
  by apply endNodes_relabel.
Qed.

Lemma endNodes_splitBoth c rem k r :
  head (drop k (phrase c)) <> head (drop k rem) ->
  drop k (phrase c) <> [] -> drop k rem <> [] ->
  take k (phrase c) = take k rem ->
  endNodes (splitBoth c rem k r) = endNodes c ++ [(rem, Some r)].
Proof.
  intros Hhd Hne1 Hne2 Htake. unfold splitBoth. cbn [phrase].
  destruct (drop k (phrase c)) as [|key1 suffix1] eqn:Hdrop1; [done|].
  destruct (drop k rem) as [|key2 suffix2] eqn:Hdrop2; [done|].
  cbn [Js.mapSet]. destruct (String.eqb_spec key1 key2) as [->|_]; [done|].
  unfold endNodes at 1. rewrite entries_mk. cbn [phrase].
  rewrite !entriesBelow_cons. unfold entriesBelow at 1. cbn [mbind list_bind].
  rewrite app_nil_r. cbn [app]. rewrite fmap_app. f_equal.
  - apply endNodes_relabel. by rewrite <- Hdrop1, <- Htake, take_drop.
  - unfold endNodes. rewrite entries_mk. cbn.
    by rewrite app_nil_r, <- Hdrop2, take_drop.
Qed.

Lemma wf_relabel ph c : wf c ->
  wf (mkNode ph (replacement c) (isEndOfWord c) (children c)).
Proof. intros (? & ? & ?)%wf_inv. by constructor. Qed.

Lemma wf_splitShorter c rem k r :
  wf c -> drop k (phrase c) <> [] -> wf (splitShorter c rem k r).
Proof.
  intros Hwf Hne. unfold splitShorter. cbn [phrase].
  destruct (drop k (phrase c)) as [|key suffix] eqn:Hdrop; [done|].
  constructor; [done|apply NoDup_singleton|].
  apply Forall_cons; split; [|constructor].
  split; [done | by apply wf_relabel].
Qed.

Lemma wf_splitBoth c rem k r :
  wf c -> head (drop k (phrase c)) <> head (drop k rem) ->
  drop k (phrase c) <> [] -> drop k rem <> [] ->
  wf (splitBoth c rem k r).
Proof.
  intros Hwf Hhd Hne1 Hne2. unfold splitBoth. cbn [phrase].
  destruct (drop k (phrase c)) as [|key1 suffix1] eqn:Hdrop1; [done|].
  destruct (drop k rem) as [|key2 suffix2] eqn:Hdrop2; [done|].
  cbn [Js.mapSet]. destruct (String.eqb_spec key1 key2) as [->|Hk]; [done|].
  constructor.
  - split; [done | by intros []].
  - cbn. apply NoDup_cons; split; [|apply NoDup_singleton].
    rewrite list_elem_of_singleton. congruence.
  - apply Forall_cons; split; [split; [done | by apply wf_relabel]|].
    apply Forall_cons; split; [|constructor].
    split; [done|]. constructor; [done|constructor|constructor].
Qed.

Lemma entriesBelow_other ws v cs w :
  Forall (fun kc => head (phrase kc.2) = Some kc.1 /\ wf kc.2) cs ->
  w ∉ cs.*1 -> (ws, v) ∈ entriesBelow cs -> head ws <> Some w.
Proof.
  intros Hcs Hw Hin [= E].
  destruct (entriesBelow_head _ _ _ Hcs Hin) as (w' & Hhd & Hin').
  congruence.
Qed.

Lemma replace_child ph rp e pre key c c' post rem r :
  wf (mkNode ph rp e (pre ++ (key, c) :: post)) ->
  head rem = Some key ->
  childUpdate c c' rem r ->
  stores (mkNode ph rp e (pre ++ (key, c) :: post))
         (mkNode ph rp e (pre ++ (key, c') :: post)) rem r.
Proof.
  intros (Hmark & Hnd & Hcs)%wf_inv Hrem (Hhd & Hwf' & Hupd).
  cbn [children isEndOfWord replacement] in *.
  rewrite fmap_app, fmap_cons in Hnd. cbn [fst] in Hnd.
  apply NoDup_app in Hnd as (Hnd1 & Hdisj & Hnd2).
  apply NoDup_cons in Hnd2 as [Hpost Hnd2].
  apply Forall_app in Hcs as [Hpre Hcs].
  apply Forall_cons in Hcs as [[Hkey Hwf] Hposts]. cbn [fst snd] in *.
  assert (Hkpre : key ∉ pre.*1).
  { intros Hin. apply (Hdisj _ Hin). left. }
  split_and!; [|done|].
  - constructor; [done| |].
    + rewrite fmap_app, fmap_cons. cbn [fst].
      apply NoDup_app. split_and!; [done..|]. by apply NoDup_cons.
    + apply Forall_app; split; [done|]. apply Forall_cons; split; [|done].
      cbn [fst snd]. split; [congruence | done].
  - intros ws v. rewrite !entries_mk, !elem_of_app, !entriesBelow_app,
      !elem_of_app, !entriesBelow_cons, !elem_of_app, Hupd.
    assert (Hown : (ws, v) ∈ (if e then [([], rp)] else []) -> ws <> rem).
    { destruct e; [|by intros ?%elem_of_nil].
      intros [= -> ->]%list_elem_of_singleton. by destruct rem. }
    pose proof (entriesBelow_other ws v pre key Hpre Hkpre) as Hp1.
    pose proof (entriesBelow_other ws v post key Hposts Hpost) as Hp2.
    assert (ws = rem -> head ws = Some key) by (by intros ->).
    naive_solver.
Qed.

Lemma append_child ph rp e cs w rem r :
  wf (mkNode ph rp e cs) ->
  head rem = Some w ->
  w ∉ cs.*1 ->
  stores (mkNode ph rp e cs)
         (mkNode ph rp e (cs ++ [(w, mkNode rem (Some r) true [])])) rem r.
Proof.
  intros (Hmark & Hnd & Hcs)%wf_inv Hrem Hw.
  cbn [children isEndOfWord replacement] in *.
  split_and!; [|done|].
  - constructor; [done| |].
    + rewrite fmap_app. apply NoDup_app. split_and!; [done| |apply NoDup_singleton].
      intros x Hx ->%list_elem_of_singleton. done.
    + apply Forall_app; split; [done|]. apply Forall_cons; split; [|constructor].
      split; [done|]. constructor; [done|constructor|constructor].
  - intros ws v. rewrite !entries_mk, !elem_of_app, entriesBelow_app, elem_of_app.
    assert (Hnew : entriesBelow [(w, mkNode rem (Some r) true [])]
                   = [(rem, Some r)]).
    { unfold entriesBelow, endNodes. cbn. by rewrite !app_nil_r. }
    rewrite Hnew, list_elem_of_singleton.
    assert (Hown : (ws, v) ∈ (if e then [([], rp)] else []) -> ws <> rem).
    { destruct e; [|by intros ?%elem_of_nil].
      intros [= -> ->]%list_elem_of_singleton. by destruct rem. }
    pose proof (entriesBelow_other ws v cs w Hcs Hw) as Hp1.
    assert (ws = rem -> head ws = Some w) by (by intros ->).
    naive_solver.
Qed.

Lemma mark_node ph rp e cs r :
  wf (mkNode ph rp e cs) ->
  stores (mkNode ph rp e cs) (mkNode ph (Some r) true cs) [] r.
Proof.
  intros (Hmark & Hnd & Hcs)%wf_inv.
  cbn [children isEndOfWord replacement] in *.
  split_and!; [|done|].
  - constructor; [|done..]. split; [by eexists | done].
  - intros ws v. rewrite !entries_mk, !elem_of_app, list_elem_of_singleton.
    assert (Hown : (ws, v) ∈ (if e then [([], rp)] else []) -> ws = []).
    { destruct e; [|by intros ?%elem_of_nil].
      by intros [= -> ->]%list_elem_of_singleton. }
    assert (Hbelow : (ws, v) ∈ entriesBelow cs -> ws <> []).
    { intros Hin. destruct (entriesBelow_head _ _ _ Hcs Hin) as (w & Hhd & _).
      by destruct ws. }
    naive_solver.
Qed.

Lemma recurse_update c c' rem r :
  stores c c' (drop (length (phrase c)) rem) r ->
  phrase c `prefix_of` rem ->
  childUpdate c c' rem r.
Proof.
  intros (Hwf & Hph & Hent) [rest ->]. split_and!; [by rewrite Hph|done|].
  rewrite drop_app_length in Hent.
  intros ws v. rewrite !elem_of_endNodes, Hph. setoid_rewrite Hent. split.
  - intros (ws' & -> & [[-> ->]|[Hne Hin]]); [by left|right].
    split; [|by eauto]. by intros ?%app_inv_head.
  - intros [[-> ->]|[Hne (ws' & -> & Hin)]].
    + exists rest. split; [done|]. by left.
    + exists ws'. split; [done|]. right. split; [|done].
      intros ->. done.
Qed.

Lemma splitShorter_update c rem r :
  wf c ->
  let k := findCommonPrefix (phrase c) rem in
  (0 < k)%nat -> k <> length (phrase c) -> k = length rem ->
  childUpdate c (splitShorter c rem k r) rem r.
Proof.
  intros Hwf k Hpos Hne Hk.
  destruct (findCommonPrefix_full_r (phrase c) rem Hk) as [suffix Hsuf].
  assert (Hdrop : drop k (phrase c) = suffix).
  { rewrite Hsuf, Hk. by rewrite drop_app_length. }
  assert (Hsuffix : suffix <> []).
  { intros ->. rewrite app_nil_r in Hsuf. by rewrite Hsuf in Hne. }
  split_and!.
  - rewrite Hsuf. destruct rem; [simpl in *; lia | done].
  - apply wf_splitShorter; [done | by rewrite Hdrop].
  - intros ws v. rewrite endNodes_splitShorter by (by rewrite Hdrop).
    rewrite elem_of_cons.
    assert ((ws, v) ∈ endNodes c -> ws <> rem).
    { intros (ws' & -> & _)%elem_of_endNodes E.
      apply (f_equal length) in E. rewrite Hsuf, !length_app in E.
      destruct suffix; [done | simpl in E; lia]. }
    naive_solver.
Qed.

Lemma splitBoth_update c rem r :
  wf c ->
  let k := findCommonPrefix (phrase c) rem in
  (0 < k)%nat -> k <> length (phrase c) -> k <> length rem ->
  childUpdate c (splitBoth c rem k r) rem r.
Proof.
  intros Hwf k Hpos Hne1 Hne2.
  pose proof (findCommonPrefix_le_l (phrase c) rem) as Hle1.
  pose proof (findCommonPrefix_le_r (phrase c) rem) as Hle2.
  pose proof (findCommonPrefix_take (phrase c) rem) as Htake.
  pose proof (findCommonPrefix_stop (phrase c) rem) as Hstop.
  fold k in Hle1, Hle2, Htake, Hstop.
  assert (Hd1 : drop k (phrase c) <> []).
  { intros E%(f_equal length). rewrite length_drop in E. simpl in E. lia. }
  assert (Hd2 : drop k rem <> []).
  { intros E%(f_equal length). rewrite length_drop in E. simpl in E. lia. }
  assert (Hhd : head (drop k (phrase c)) <> head (drop k rem)).
  { apply Hstop; lia. }
  split_and!.
  - unfold splitBoth. cbn [phrase]. rewrite <- Htake.
    destruct (phrase c); [simpl in *; lia|]. destruct k; [lia | done].
  - by apply wf_splitBoth.
  - intros ws v. rewrite endNodes_splitBoth by done.
    rewrite elem_of_app, list_elem_of_singleton.
    assert ((ws, v) ∈ endNodes c -> ws <> rem).
    { intros (ws' & -> & _)%elem_of_endNodes E. apply Hhd.
      rewrite <- E, drop_app_le by lia.
      by destruct (drop k (phrase c)). }
    naive_solver.
Qed.

(** [insertRecursive] stores the remaining words with the replacement and
    leaves every other entry alone. *)
Lemma insertRecursive_stores n :
  forall words index r,
    wf n -> stores n (insertRecursive n words index r) (drop index words) r.
Proof.
  induction n as [ph rp e cs IH] using RadixNode_ind'.
  intros words index r Hwf. rewrite insertRecursive_eq.
  cbn [phrase replacement isEndOfWord children].
  destruct (drop index words) as [|w rem'] eqn:Hrem; [by apply mark_node|].
  rewrite <- Hrem.
  pose proof Hwf as (_ & Hnd & Hcs)%wf_inv. cbn [children] in Hnd, Hcs.
  destruct (insertIntoChildren _ _ _ cs) as [cs'|] eqn:Hloop.
  - apply insertIntoChildren_Some in Hloop
      as (pre & key & child & post & -> & Hpre & Hpos & ->).
    apply Forall_app in Hcs as [_ Hcs].
    apply Forall_cons in Hcs as [[Hkey Hwfc] _]. cbn [fst snd] in *.
    apply Forall_app in IH as [_ IH]. apply Forall_cons in IH as [IHc _].
    cbn [snd] in IHc.
    pose proof Hpos as (w' & Hw1 & Hw2)%findCommonPrefix_pos.
    apply replace_child; [done|congruence|]. cbv zeta.
    destruct (Nat.eqb_spec (findCommonPrefix (phrase child) (drop index words))
                (length (phrase child))) as [Hfull|Hnfull].
    + apply recurse_update; [|by apply findCommonPrefix_full_l].
      rewrite Hfull, drop_drop. by apply IHc.
    + destruct (Nat.eqb_spec
                  (findCommonPrefix (phrase child) (drop index words))
                  (length (drop index words))) as [Hshort|Hnshort].
      * by apply splitShorter_update.
      * by apply splitBoth_update.
  - apply insertIntoChildren_None in Hloop.
    assert (Hw : w ∉ cs.*1).
    { intros ([k c] & -> & Hin)%list_elem_of_fmap. cbn [fst] in *.
      rewrite Forall_forall in Hloop, Hcs.
      specialize (Hloop _ Hin). destruct (Hcs _ Hin) as [Hk _].
      cbn [fst snd] in *.
      assert (0 < findCommonPrefix (phrase c) (drop index words))%nat; [|lia].
      apply findCommonPrefix_pos. exists k. by rewrite Hrem. }
    rewrite mapSet_fresh by done. apply append_child; [done| by rewrite Hrem |done].
Qed.

(** ** Longest match *)

Lemma longestMatch_better es1 es2 rest m b r :
  longestMatch es1 rest m b -> longestMatch es2 rest m r ->
  longestMatch (es1 ++ es2) rest m (better b r).
Proof.
  destruct r as [[m2 v2]|], b as [[m1 v1]|]; simpl.
  - intros (ws1 & Hin1 & Hp1 & -> & Hmax1) (ws2 & Hin2 & Hp2 & -> & Hmax2).
    destruct (Z.ltb_spec (m + Z.of_nat (length ws1))
                (m + Z.of_nat (length ws2))); simpl.
    + exists ws2. split_and!; [set_solver|done..|].
      intros ws' v' [Hin|Hin]%elem_of_app Hp;
        [specialize (Hmax1 _ _ Hin Hp); lia | by eapply Hmax2].
    + exists ws1. split_and!; [set_solver|done..|].
      intros ws' v' [Hin|Hin]%elem_of_app Hp;
        [by eapply Hmax1 | specialize (Hmax2 _ _ Hin Hp); lia].
  - intros Hnone (ws2 & Hin2 & Hp2 & -> & Hmax2).
    exists ws2. split_and!; [set_solver|done..|].
    intros ws' v' [Hin|Hin]%elem_of_app Hp;
      [by destruct (Hnone _ _ Hin) | by eapply Hmax2].
  - intros (ws1 & Hin1 & Hp1 & -> & Hmax1) Hnone.
    exists ws1. split_and!; [set_solver|done..|].
    intros ws' v' [Hin|Hin]%elem_of_app Hp;
      [by eapply Hmax1 | by destruct (Hnone _ _ Hin)].
  - intros Hn1 Hn2 ws v [Hin|Hin]%elem_of_app; [by eapply Hn1 | by eapply Hn2].
Qed.

Lemma longestMatch_skip es1 es2 rest m b :
  longestMatch es1 rest m b ->
  (forall ws v, (ws, v) ∈ es2 -> ~ ws `prefix_of` rest) ->
  longestMatch (es1 ++ es2) rest m b.
Proof.
  intros Hb Hnone.
  assert (E : b = better b None) by (by destruct b).
  rewrite E. by apply longestMatch_better.
Qed.

Lemma longestMatch_child c rest m res :
  phrase c `prefix_of` rest ->
  longestMatch (entries c) (drop (length (phrase c)) rest)
               (m + Z.of_nat (length (phrase c))) res ->
  longestMatch (endNodes c) rest m res.
Proof.
  intros [rest' ->]. rewrite drop_app_length.
  destruct res as [[m' v]|]; simpl.
  - intros (ws & Hin & Hp & -> & Hmax). exists (phrase c ++ ws). split_and!.
    + apply elem_of_endNodes. eauto.
    + by apply prefix_app.
    + rewrite length_app. lia.
    + intros ws' v' (ws'' & -> & Hin')%elem_of_endNodes Hp'%prefix_app_inv.
      rewrite !length_app. specialize (Hmax _ _ Hin' Hp'). lia.
  - intros Hnone ws v (ws' & -> & Hin)%elem_of_endNodes Hp%prefix_app_inv.
    by eapply Hnone.
Qed.

Lemma endNodes_no_match c rest :
  ~ phrase c `prefix_of` rest ->
  forall ws v, (ws, v) ∈ endNodes c -> ~ ws `prefix_of` rest.
Proof.
  intros Hn ws v (ws' & -> & _)%elem_of_endNodes Hp.
  apply Hn. by eapply prefix_app_l.
Qed.

Lemma at_drop (words : list string) index w :
  0 <= index -> Js.at_ words index = Some w ->
  drop (Z.to_nat index) words = w :: drop (Z.to_nat (index + 1)) words.
Proof.
  intros Hi. unfold Js.at_. destruct (Z.ltb_spec index 0); [lia|].
  intros Hw. replace (Z.to_nat (index + 1)) with (S (Z.to_nat index)) by lia.
  by apply drop_S.
Qed.

Lemma at_None_drop (words : list string) index :
  0 <= index -> Js.at_ words index = None -> drop (Z.to_nat index) words = [].
Proof.
  intros Hi. unfold Js.at_. destruct (Z.ltb_spec index 0); [lia|].
  intros Hw%lookup_ge_None. by apply drop_ge.
Qed.

Lemma phraseMatches_prefix label words index :
  0 <= index ->
  phraseMatches label words index = true <->
  label `prefix_of` drop (Z.to_nat index) words.
Proof.
  revert index; induction label as [|x label IH]; intros index Hi; simpl.
  - split; [intros _; apply prefix_nil | done].
  - destruct (Js.at_ words index) as [w|] eqn:Hat.
    + rewrite (at_drop _ _ _ Hi Hat), andb_true_iff, IH by lia.
      destruct (String.eqb_spec x w) as [->|Hne]; split.
      * intros [_ Hp]. by apply prefix_cons.
      * intros Hp%prefix_cons_inv_2. done.
      * by intros [? _].
      * by intros Hp%prefix_cons_inv_1.
    + rewrite (at_None_drop _ _ Hi Hat). split; [done|].
      by intros ?%prefix_nil_inv.
Qed.

Lemma phraseMatches_negative label words index :
  index < 0 -> label <> [] -> phraseMatches label words index = false.
Proof.
  intros Hi Hl. destruct label; [done|]. simpl. unfold Js.at_.
  by destruct (Z.ltb_spec index 0); [|lia].
Qed.

Lemma findLongestMatchRecursive_eq n words index m :
  findLongestMatchRecursive n words index m =
  let own := if isEndOfWord n then Some (m, replacement n) else None in
  if Z.of_nat (length words) <=? index then own
  else
    findInChildren
      (fun child =>
         findLongestMatchRecursive child words
           (index + Z.of_nat (length (phrase child)))
           (m + Z.of_nat (length (phrase child))))
      words index (children n) own.
Proof. by destruct n. Qed.

Lemma longestMatch_own n rest m :
  longestMatch (ownEntry n) rest m
    (if isEndOfWord n then Some (m, replacement n) else None).
Proof.
  unfold ownEntry. destruct (isEndOfWord n); simpl.
  - exists []. split_and!; [by left|apply prefix_nil|simpl; lia|].
    by intros ws' v' [= -> ->]%list_elem_of_singleton _.
  - by intros ws v ?%elem_of_nil.
Qed.

Lemma findInChildren_spec recurse words index m cs :
  0 <= index < Z.of_nat (length words) ->
  let rest := drop (Z.to_nat index) words in
  Forall (fun kc => phrase kc.2 `prefix_of` rest ->
                    longestMatch (endNodes kc.2) rest m (recurse kc.2)) cs ->
  forall es0 best,
    longestMatch es0 rest m best ->
    longestMatch (es0 ++ entriesBelow cs) rest m
                 (findInChildren recurse words index cs best).
Proof.
  intros Hi rest. induction cs as [|[k c] cs IH]; intros Hrec es0 best Hbest.
  - by rewrite app_nil_r.
  - apply Forall_cons in Hrec as [Hc Hrec]. cbn [snd] in Hc.
    rewrite entriesBelow_cons, app_assoc. cbn [findInChildren].
    destruct (Z.ltb_spec (Z.of_nat (length words))
                (index + Z.of_nat (length (phrase c)))) as [Hlong|Hfits].
    { apply IH; [done|]. apply longestMatch_skip; [done|].
      apply endNodes_no_match. intros Hp%prefix_length.
      unfold rest in Hp. rewrite length_drop in Hp. lia. }
    destruct (phraseMatches (phrase c) words index) eqn:Hm.
    + apply phraseMatches_prefix in Hm; [|lia].
      apply IH; [done|]. apply longestMatch_better; [done|]. by apply Hc.
    + apply IH; [done|]. apply longestMatch_skip; [done|].
      apply endNodes_no_match. intros Hp. unfold rest in Hp.
      apply phraseMatches_prefix in Hp; [congruence | lia].
Qed.

(** From a node on, [findLongestMatchRecursive] returns a longest stored
    entry that the words from [index] on begin with. *)
Lemma findLongestMatchRecursive_spec n :
  forall words index m,
    wf n -> 0 <= index ->
    longestMatch (entries n) (drop (Z.to_nat index) words) m
                 (findLongestMatchRecursive n words index m).
Proof.
  induction n as [ph rp e cs IH] using RadixNode_ind'.
  intros words index m Hwf Hi.
  pose proof Hwf as (_ & _ & Hcs)%wf_inv. cbn [children] in Hcs.
  rewrite findLongestMatchRecursive_eq, entries_eq. cbv zeta.
  cbn [children].
  destruct (Z.leb_spec (Z.of_nat (length words)) index) as [Hend|Hmore].
  - apply longestMatch_skip; [apply longestMatch_own|].
    rewrite drop_ge by lia. intros ws v Hin ->%prefix_nil_inv.
    destruct (entriesBelow_head _ _ _ Hcs Hin) as (w & Hhd & _). done.
  - apply findInChildren_spec; [lia| |apply longestMatch_own].
    rewrite Forall_forall in IH, Hcs. apply Forall_forall.
    intros [k c] Hin Hp. cbn [snd] in *.
    destruct (Hcs _ Hin) as [_ Hwfc]. cbn [snd] in Hwfc.
    apply longestMatch_child; [done|].
    rewrite drop_drop.
    replace (Z.to_nat index + length (phrase c))%nat
      with (Z.to_nat (index + Z.of_nat (length (phrase c)))) by lia.
    apply (IH _ Hin); [done | lia].
Qed.

Lemma findInChildren_negative recurse words index cs best :
  index < 0 ->
  Forall (fun kc => head (phrase kc.2) = Some kc.1 /\ wf kc.2) cs ->
  findInChildren recurse words index cs best = best.
Proof.
  intros Hi. induction cs as [|[k c] cs IH]; [done|].
  intros [[Hk _] Hcs]%Forall_cons. cbn [findInChildren fst snd] in *.
  rewrite phraseMatches_negative; [|done|by destruct (phrase c)].
  rewrite IH by done. by destruct (_ <? _).
Qed.

Lemma findLongestMatchRecursive_negative n words index m :
  wf n -> index < 0 ->
  findLongestMatchRecursive n words index m =
  if isEndOfWord n then Some (m, replacement n) else None.
Proof.
  intros (_ & _ & Hcs)%wf_inv Hi.
  rewrite findLongestMatchRecursive_eq. cbv zeta.
  destruct (Z.leb_spec (Z.of_nat (length words)) index); [done|].
  by apply findInChildren_negative.
Qed.

(** ** Tokens *)

(** The white space of the code units below 256. *)
Lemma isWhiteSpace_spec c :
  Js.isWhiteSpace c = true <->
  Ascii.N_of_ascii c ∈ [9; 10; 11; 12; 13; 32; 160]%N.
Proof.
  unfold Js.isWhiteSpace. cbv zeta.
  rewrite !orb_true_iff, andb_true_iff, !N.leb_le, !N.eqb_eq.
  set_unfold. lia.
Qed.

(** A no-break space is white space for [trim] and for the comment
    splitter, and a character like any other for [split(" ")]. *)
Example no_break_space :
  tokenize (String "160" "x") = ["x"] /\
  sampleWords (String "160" "x") = [String "160" "x"] /\
  isWord (String "160" "x") = false /\
  isBlank (String "160" EmptyString) = true /\
  commentWords ("a" +:+ String "160" "b") = ["a"; "b"].
Proof. by split_and!. Qed.

Lemma split_nonempty sep s : Js.split sep s <> [].
Proof.
  destruct s as [|c s]; simpl; [done|].
  destruct (Ascii.eqb c sep); [done|]. by destruct (Js.split sep s).
Qed.

Lemma tokenize_nonempty p : tokenize p <> [].
Proof. apply split_nonempty. Qed.

(** ** Trees built by [insert] *)

Lemma latest_snoc calls call key :
  latest (calls ++ [call]) key =
  if decide (tokenize call.1 = key) then Some call.2 else latest calls key.
Proof. unfold latest. by rewrite foldl_snoc. Qed.

Lemma latest_mostRecent calls key r :
  latest calls key = Some r <-> mostRecent calls key r.
Proof.
  induction calls as [|[p r'] calls IH] using rev_ind.
  - split; [done|]. intros (before & p & after & E & _). by destruct before.
  - rewrite latest_snoc. cbn [fst snd]. case_decide as Hp.
    + split.
      * intros [= ->]. exists calls, p, []. by split_and!.
      * intros (before & q & after & E & Hq & Hafter).
        destruct after as [|a after _] using rev_ind.
        { apply app_inj_tail in E as [_ [= _ ->]]. done. }
        rewrite app_comm_cons, app_assoc in E.
        apply app_inj_tail in E as [_ <-].
        apply Forall_app in Hafter as [_ [Ha _]%Forall_cons]. done.
    + rewrite IH. split.
      * intros (before & q & after & -> & Hq & Hafter).
        exists before, q, (after ++ [(p, r')]). split_and!; [|done|].
        { by rewrite <- app_assoc. }
        apply Forall_app. split; [done|]. by repeat constructor.
      * intros (before & q & after & E & Hq & Hafter).
        destruct after as [|a after _] using rev_ind.
        { apply app_inj_tail in E as [_ [= <- _]]. done. }
        rewrite app_comm_cons, app_assoc in E.
        apply app_inj_tail in E as [-> <-].
        apply Forall_app in Hafter as [Hafter _].
        by exists before, q, after.
Qed.

Lemma latest_is_Some calls key :
  is_Some (latest calls key) <->
  exists p r, (p, r) ∈ calls /\ tokenize p = key.
Proof.
  induction calls as [|[p r'] calls IH] using rev_ind.
  - split; [by intros [? ?] | by intros (? & ? & ?%elem_of_nil & _)].
  - rewrite latest_snoc. cbn [fst snd]. case_decide as Hp.
    + split; [|by eexists]. intros _. exists p, r'. set_solver.
    + rewrite IH. split.
      * intros (q & r & Hin & Hq). exists q, r. set_solver.
      * intros (q & r & [Hin|[= -> ->]%list_elem_of_singleton]%elem_of_app & Hq);
          [by eauto | done].
Qed.

Lemma build_snoc calls p r : build (calls ++ [(p, r)]) = insert (build calls) p r.
Proof. unfold build. by rewrite foldl_snoc. Qed.

Lemma insert_stores t p r :
  wf t -> stores t (insert t p r) (tokenize p) r.
Proof. intros Hwf. by apply (insertRecursive_stores t (tokenize p) 0%nat r). Qed.

Lemma insert_root_marker t p r :
  isEndOfWord (insert t p r) = isEndOfWord t.
Proof.
  unfold insert. rewrite insertRecursive_eq. rewrite drop_0.
  pose proof (tokenize_nonempty p). destruct (tokenize p); [done|].
  by destruct (insertIntoChildren _ _ _ _).
Qed.

(** The root of a built tree. *)
Lemma build_root calls :
  wf (build calls) /\ phrase (build calls) = [] /\
  isEndOfWord (build calls) = false.
Proof.
  induction calls as [|[p r] calls (Hwf & Hph & Hend)] using rev_ind.
  - split_and!; [apply wf_newTree|done..].
  - rewrite build_snoc. destruct (insert_stores _ p r Hwf) as (Hwf' & Hph' & _).
    split_and!; [done|congruence|by rewrite insert_root_marker].
Qed.

(** A built tree stores exactly the latest replacement of every token
    sequence inserted. *)
Lemma build_entries calls ws v :
  (ws, v) ∈ entries (build calls) <->
  exists r, v = Some r /\ latest calls ws = Some r.
Proof.
  revert ws v. induction calls as [|[p r] calls IH] using rev_ind; intros ws v.
  - cbn. rewrite elem_of_nil. naive_solver.
  - rewrite build_snoc, latest_snoc. cbn [fst snd].
    destruct (build_root calls) as (Hwf & _ & _).
    destruct (insert_stores _ p r Hwf) as (_ & _ & ->). rewrite IH.
    case_decide; naive_solver.
Qed.

(** A stored token sequence is found in full when it is the whole query. *)
Lemma findLongestMatch_exact calls key r :
  mostRecent calls key r ->
  findLongestMatch (build calls) key 0 =
  Some (Z.of_nat (length key), Some r).
Proof.
  intros Hr%latest_mostRecent.
  destruct (build_root calls) as (Hwf & _ & _).
  pose proof (findLongestMatchRecursive_spec (build calls) key 0 0 Hwf
                ltac:(done)) as Hspec.
  change (Z.to_nat 0) with 0%nat in Hspec. rewrite drop_0 in Hspec.
  assert (Hin : (key, Some r) ∈ entries (build calls)).
  { apply build_entries. eauto. }
  unfold findLongestMatch.
  destruct (findLongestMatchRecursive _ _ _ _) as [[k v]|]; simpl in Hspec.
  - destruct Hspec as (ws & Hws & Hp & -> & Hmax).
    specialize (Hmax _ _ Hin ltac:(done)).
    assert (ws = key) as ->.
    { apply prefix_length_eq; [done | lia]. }
    apply build_entries in Hws as (r' & -> & Hr'). repeat f_equal. congruence.
  - by destruct (Hspec _ _ Hin).
Qed.

(** C1: on a tree built by any sequence of [insert] calls,
    [findLongestMatch(ws, i)] returns [(k, r)] where the [k] words of [ws]
    from index [i] on are the tokens of an inserted phrase, [r] is the
    replacement most recently inserted for these tokens, and no inserted
    phrase with more tokens occurs at [i]; it returns no match exactly when
    no inserted phrase occurs at [i]. *)
Theorem findLongestMatch_longest_inserted calls ws i :
  match findLongestMatch (build calls) ws i with
  | Some (k, v) =>
      exists key r,
        v = Some r /\ k = Z.of_nat (length key) /\
        occursAt key ws i /\ mostRecent calls key r /\
        forall p r', (p, r') ∈ calls -> occursAt (tokenize p) ws i ->
                     (length (tokenize p) <= length key)%nat
  | None =>
      forall p r', (p, r') ∈ calls -> ~ occursAt (tokenize p) ws i
  end.
Proof.
  destruct (build_root calls) as (Hwf & _ & Hend). unfold findLongestMatch.
  destruct (Z.lt_ge_cases i 0) as [Hneg|Hi].
  { rewrite findLongestMatchRecursive_negative, Hend by done.
    intros p r' _ [? _]. lia. }
  pose proof (findLongestMatchRecursive_spec (build calls) ws i 0 Hwf Hi)
    as Hspec.
  assert (Hstored : forall p r', (p, r') ∈ calls ->
            exists v', (tokenize p, v') ∈ entries (build calls)).
  { intros p r' Hin.
    destruct (proj2 (latest_is_Some calls (tokenize p))) as [r'' Hr'']; [by eauto|].
    exists (Some r''). apply build_entries. eauto. }
  destruct (findLongestMatchRecursive _ _ _ _) as [[k v]|]; simpl in Hspec.
  - destruct Hspec as (key & Hkey & Hp & -> & Hmax).
    apply build_entries in Hkey as (r & -> & Hr).
    exists key, r. split_and!; [done|lia|done|by apply latest_mostRecent|].
    intros p r' Hin [_ Hocc]. destruct (Hstored _ _ Hin) as [v' Hv'].
    by eapply Hmax.
  - intros p r' Hin [_ Hocc]. destruct (Hstored _ _ Hin) as [v' Hv'].
    by eapply Hspec.
Qed.

(** C3: a phrase stays stored with its replacement under later insertions
    of phrases with other tokens. *)
Theorem insert_keeps_stored_phrases calls p r later :
  Forall (fun call => tokenize call.1 <> tokenize p) later ->
  findLongestMatch (build (calls ++ (p, r) :: later)) (tokenize p) 0 =
  Some (Z.of_nat (length (tokenize p)), Some r).
Proof.
  intros Hlater. apply findLongestMatch_exact. by exists calls, p, later.
Qed.

Lemma insert_keeps_stored_phrases_witness :
  findLongestMatch
    (build ([("one cat", "un gato")] ++
            ("big cat", "gato grande") ::
            [("big dog", "perro grande"); ("big", "grande")]))
    (tokenize "big cat") 0
  = Some (Z.of_nat (length (tokenize "big cat")), Some "gato grande").
Proof.
  apply (insert_keeps_stored_phrases
           [("one cat", "un gato")] "big cat" "gato grande"
           [("big dog", "perro grande"); ("big", "grande")]).
  repeat constructor; vm_compute; discriminate.
Defined.

(** ** The radix invariant *)

Lemma wf_nodes n : wf n -> Forall wf (nodes n).
Proof.
  induction n as [ph rp e cs IH] using RadixNode_ind'. intros Hwf.
  rewrite nodes_eq. apply Forall_cons; split; [done|].
  apply wf_inv in Hwf as (_ & _ & Hcs). cbn [children] in *.
  apply Forall_forall. intros n' ([k c] & Hn' & Hin)%list_elem_of_bind.
  rewrite Forall_forall in IH, Hcs. destruct (Hcs _ Hin) as [_ Hwfc].
  pose proof (IH _ Hin Hwfc) as Hall. rewrite Forall_forall in Hall. eauto.
Qed.

Lemma wf_firstWords n :
  wf n -> firstWords (children n) = Some <$> (children n).*1.
Proof.
  intros (_ & _ & Hcs)%wf_inv. unfold firstWords.
  rewrite <- list_fmap_compose. apply Forall_fmap_ext_1.
  eapply Forall_impl; [done|]. by intros [k c] [-> _].
Qed.

(** C4: in a tree built by [insert] calls, the labels of the children of
    any node begin with pairwise different words (and none is empty). *)
Theorem children_first_words_distinct calls :
  Forall (fun n => NoDup (firstWords (children n)) /\
                   Forall (fun kc => phrase kc.2 <> []) (children n))
         (nodes (build calls)).
Proof.
  destruct (build_root calls) as (Hwf & _ & _).
  eapply Forall_impl; [by apply wf_nodes|].
  intros n Hn. split.
  - rewrite wf_firstWords by done. apply NoDup_fmap; [apply _|].
    by apply wf_inv in Hn as (_ & ? & _).
  - apply wf_inv in Hn as (_ & _ & Hcs).
    eapply Forall_impl; [done|]. intros [k c] [Hk _] E. cbn [snd] in *.
    by rewrite E in Hk.
Qed.

(** ** One node per stored phrase *)

Lemma NoDup_entries n : wf n -> NoDup (entries n).*1.
Proof.
  induction n as [ph rp e cs IH] using RadixNode_ind'.
  intros (_ & Hnd & Hcs)%wf_inv. cbn [children] in *.
  rewrite entries_mk, fmap_app. apply NoDup_app. split_and!.
  - destruct e; [apply NoDup_singleton | constructor].
  - intros ws Hown ([ws' v] & -> & Hin)%list_elem_of_fmap.
    destruct (entriesBelow_head _ _ _ Hcs Hin) as (w & Hhd & _).
    destruct e; [|by apply elem_of_nil in Hown].
    apply list_elem_of_singleton in Hown. cbn [fst] in *. by subst.
  - induction cs as [|[k c] cs IHcs]; [constructor|].
    apply Forall_cons in IH as [IHc IH]. apply Forall_cons in Hcs as [[Hk Hwfc] Hcs].
    rewrite fmap_cons in Hnd. apply NoDup_cons in Hnd as [Hfresh Hnd].
    cbn [fst snd] in *. rewrite entriesBelow_cons, fmap_app.
    apply NoDup_app. split_and!; [| |by apply IHcs].
    + unfold endNodes. rewrite <- list_fmap_compose.
      assert (E : fst ∘ (fun x : list string * option string => (phrase c ++ x.1, x.2))
                  = app (phrase c) ∘ fst) by done.
      rewrite E, list_fmap_compose. apply NoDup_fmap; [apply _ | by apply IHc].
    + intros ws ([ws1 v1] & -> & Hin1)%list_elem_of_fmap
        ([ws2 v2] & E & Hin2)%list_elem_of_fmap. cbn [fst] in *. subst ws2.
      pose proof (endNodes_head _ _ _ _ Hk Hin1) as Hhd.
      by apply (entriesBelow_other _ _ _ _ Hcs Hfresh Hin2).
Qed.

Lemma filter_key_NoDup {V} (l : list (list string * V)) key v :
  NoDup l.*1 -> (key, v) ∈ l ->
  filter (fun e => e.1 = key) l = [(key, v)].
Proof.
  induction l as [|[k v'] l IH]; [by intros _ ?%elem_of_nil|].
  rewrite fmap_cons. intros [Hfresh Hnd]%NoDup_cons Hin. cbn [fst] in *.
  assert (Hnone : k ∉ l.*1 -> filter (fun e : list string * V => e.1 = k) l = []).
  { clear. intros Hk. induction l as [|[k' v''] l IHl]; [done|].
    rewrite fmap_cons, not_elem_of_cons in Hk. destruct Hk as [Hne Hk].
    rewrite filter_cons_False by done. by apply IHl. }
  apply elem_of_cons in Hin as [[= <- <-]|Hin].
  - rewrite filter_cons_True by done. f_equal. by apply Hnone.
  - rewrite filter_cons_False; [by apply IH|].
    cbn. intros ->. apply Hfresh. apply list_elem_of_fmap. by exists (key, v).
Qed.

Lemma endNodes_root t : phrase t = [] -> endNodes t = entries t.
Proof.
  intros Hph. unfold endNodes. rewrite Hph. rewrite <- (list_fmap_id (entries t)) at 2.
  apply list_fmap_ext. by intros _ [ws v] _.
Qed.

(** C6: after inserting a phrase twice, exactly one end-of-word node has
    the tokens of the phrase as its root-to-node label concatenation; it
    holds the second replacement, which is the one found. *)
Theorem reinsert_overwrites calls p r1 r2 :
  let t := insert (insert (build calls) p r1) p r2 in
  filter (fun e => e.1 = tokenize p) (endNodes t) = [(tokenize p, Some r2)] /\
  findLongestMatch t (tokenize p) 0 =
  Some (Z.of_nat (length (tokenize p)), Some r2).
Proof.
  intros t. subst t. rewrite <- !build_snoc.
  set (calls' := (calls ++ [(p, r1)]) ++ [(p, r2)]).
  assert (Hr : mostRecent calls' (tokenize p) r2).
  { by exists (calls ++ [(p, r1)]), p, []. }
  split; [|by apply findLongestMatch_exact].
  destruct (build_root calls') as (Hwf & Hph & _).
  rewrite endNodes_root by done.
  apply filter_key_NoDup; [by apply NoDup_entries|].
  apply build_entries. exists r2. split; [done|]. by apply latest_mostRecent.
Qed.

(** ** Sampling *)

(** For a count of two or more, the sample has as many words as FOLLOW
    the random word, [wordCount] at most: the slice ends one word early. *)
Lemma getRandomWordsFromWords_count words wordCount randomIndex :
  2 <= wordCount -> 0 <= randomIndex < Z.of_nat (length words) ->
  getRandomWordsFromWords words wordCount randomIndex =
  Some (Js.join " "
          (take (Z.to_nat (Z.min wordCount
                             (Z.of_nat (length words) - randomIndex - 1)))
                (drop (Z.to_nat randomIndex) words))).
Proof.
  intros Hc Hi. unfold getRandomWordsFromWords, slice.
  destruct (Z.ltb_spec wordCount 1); [lia|].
  destruct (Z.eqb_spec wordCount 1); [lia|].
  destruct (Z.ltb_spec randomIndex 0); [lia|].
  rewrite (Z.min_l randomIndex) by lia.
  destruct (Z.ltb_spec wordCount (Z.of_nat (length words) - randomIndex - 1)).
  - destruct (Z.ltb_spec (randomIndex + wordCount) 0); [lia|].
    do 3 f_equal. lia.
  - destruct (Z.ltb_spec
      (randomIndex + (Z.of_nat (length words) - randomIndex - 1)) 0); [lia|].
    do 3 f_equal. lia.
Qed.

(** C8 (failing input): at the last index of a two-word list, a request
    for two words yields the empty string, a sample of no word; at the
    first index it yields one word although two remain. *)
Theorem getRandomWordsFromWords_short_sample :
  getRandomWordsFromWords ["hello"; "world"] 2 1 = Some EmptyString /\
  getRandomWordsFromWords ["hello"; "world"] 2 0 = Some "hello".
Proof. split; reflexivity. Qed.

(** ** Batch translation *)

Lemma forEachTranslation_zip samples translatedWords index cycle :
  let pairs := zip (randomWord <$> drop index samples) translatedWords in
  tree (forEachTranslation samples translatedWords index cycle) =
    foldl (fun t pair => insert t pair.1 pair.2) (tree cycle) pairs /\
  globalState (forEachTranslation samples translatedWords index cycle) =
    mergeAll (globalState cycle) pairs.
Proof.
  revert index cycle.
  induction translatedWords as [|translation rest IH]; intros index cycle.
  - cbn. by rewrite zip_with_nil_r.
  - cbn [forEachTranslation]. destruct (samples !! index) as [sample|] eqn:Hs.
    + rewrite (drop_S _ _ _ Hs). cbn. apply IH.
    + pose proof (IH (S index) cycle) as IH'.
      apply lookup_ge_None in Hs.
      rewrite !drop_ge in * by lia. done.
Qed.

Lemma parseTranslated_nonempty translated : parseTranslated translated <> [].
Proof.
  unfold parseTranslated. intros E%fmap_nil_inv. by apply split_nonempty in E.
Qed.

(** C2 (as the code has it): whatever the two lengths, the requests and
    the parsed responses are paired by position as far as both lists go;
    these pairs, and only they, are inserted into the tree and merged into
    the dictionary, in order. *)
Theorem translateBatch_pairs_by_position cycle samples translated :
  samples <> [] -> translated <> EmptyString ->
  let requests := randomWord <$> samples in
  let responses := parseTranslated translated in
  let pairs := zip requests responses in
  tree (translateBatch cycle samples (Some translated)) =
    foldl (fun t pair => insert t pair.1 pair.2) (tree cycle) pairs /\
  globalState (translateBatch cycle samples (Some translated)) =
    mergeAll (globalState cycle) pairs /\
  length pairs = (length requests `min` length responses)%nat /\
  forall i request response,
    pairs !! i = Some (request, response) <->
    requests !! i = Some request /\ responses !! i = Some response.
Proof.
  intros Hs Ht requests responses pairs. unfold translateBatch.
  destruct samples as [|sample samples]; [done|]. cbn [length Nat.ltb Nat.leb].
  destruct translated as [|c translated]; [done|].
  pose proof (parseTranslated_nonempty (String c translated)) as Hne.
  fold responses in Hne |- *.
  destruct (Nat.eqb_spec (length responses) 0) as [E|_].
  { by destruct responses. }
  destruct (forEachTranslation_zip (sample :: samples) responses 0 cycle)
    as [Htree Hdict].
  rewrite drop_0 in Htree, Hdict. split_and!; [done|done| |].
  - apply length_zip_with.
  - intros i request response. unfold pairs. rewrite lookup_zip_with_Some.
    naive_solver.
Qed.

Lemma translateBatch_pairs_by_position_witness :
  tree (translateBatch (mkCycle newTree ∅ [])
          [mkSample "one cat" (3, 10); mkSample "two" (20, 23)]
          (Some "'un gato, dos'")) =
    foldl (fun t pair => insert t pair.1 pair.2) newTree
          (zip (randomWord <$>
                  [mkSample "one cat" (3, 10); mkSample "two" (20, 23)])
               (parseTranslated "'un gato, dos'")).
Proof.
  apply (translateBatch_pairs_by_position (mkCycle newTree ∅ [])
           [mkSample "one cat" (3, 10); mkSample "two" (20, 23)]
           "'un gato, dos'");
    discriminate.
Defined.

(** C2 (counterexample): two phrases are sent and one translation comes
    back; the batch is not discarded, the first phrase is inserted into the
    tree and merged into the dictionary. *)
Lemma translateBatch_mismatch_applied :
  length (parseTranslated "uno") <> 2%nat /\
  findLongestMatch
    (tree (translateBatch (mkCycle newTree ∅ [])
             [mkSample "one" (3, 6); mkSample "two" (20, 23)] (Some "uno")))
    ["one"] 0 = Some (1, Some "uno") /\
  globalState
    (translateBatch (mkCycle newTree ∅ [])
       [mkSample "one" (3, 6); mkSample "two" (20, 23)] (Some "uno"))
    !! "one" = Some "uno".
Proof. split_and!; [by vm_compute | reflexivity | reflexivity]. Qed.

(** ** Round trip through the dictionary *)

Lemma longestMatch_unique es1 es2 rest m res1 res2 :
  (forall ws v, (ws, v) ∈ es1 <-> (ws, v) ∈ es2) ->
  (forall ws v v', (ws, v) ∈ es1 -> (ws, v') ∈ es1 -> v = v') ->
  longestMatch es1 rest m res1 -> longestMatch es2 rest m res2 ->
  res1 = res2.
Proof.
  intros Hsame Hfun.
  destruct res1 as [[m1 v1]|], res2 as [[m2 v2]|]; simpl.
  - intros (ws1 & Hin1 & Hp1 & -> & Hmax1) (ws2 & Hin2 & Hp2 & -> & Hmax2).
    apply Hsame in Hin2.
    pose proof (Hmax1 _ _ Hin2 Hp2). apply Hsame in Hin1.
    pose proof (Hmax2 _ _ Hin1 Hp1). apply Hsame in Hin1.
    assert (ws1 = ws2) as ->.
    { destruct (prefix_weak_total _ _ _ Hp1 Hp2) as [Hp|Hp];
        [|symmetry]; apply prefix_length_eq; done || lia. }
    by rewrite (Hfun _ _ _ Hin1 Hin2).
  - intros (ws1 & Hin1 & Hp1 & _) Hnone. apply Hsame in Hin1.
    by destruct (Hnone _ _ Hin1).
  - intros Hnone (ws2 & Hin2 & Hp2 & _). apply Hsame in Hin2.
    by destruct (Hnone _ _ Hin2).
  - done.
Qed.

(** Two built trees that store the same replacements answer alike. *)
Lemma findLongestMatch_ext calls1 calls2 :
  (forall key, latest calls1 key = latest calls2 key) ->
  forall ws i,
    findLongestMatch (build calls1) ws i = findLongestMatch (build calls2) ws i.
Proof.
  intros Hsame ws i. unfold findLongestMatch.
  destruct (build_root calls1) as (Hwf1 & _ & Hend1).
  destruct (build_root calls2) as (Hwf2 & _ & Hend2).
  destruct (Z.lt_ge_cases i 0) as [Hneg|Hi].
  { by rewrite !findLongestMatchRecursive_negative, Hend1, Hend2. }
  eapply longestMatch_unique;
    [| |by apply findLongestMatchRecursive_spec
        |by apply findLongestMatchRecursive_spec].
  - intros key v. rewrite !build_entries. by setoid_rewrite Hsame.
  - intros key v v' (r & -> & Hr)%build_entries (r' & -> & Hr')%build_entries.
    congruence.
Qed.

Lemma mergeAll_snoc saved pairs p r :
  mergeAll saved (pairs ++ [(p, r)]) = <[p := r]> (mergeAll saved pairs).
Proof. unfold mergeAll. by rewrite foldl_snoc. Qed.

Lemma mergeAll_lookup_Some pairs p r :
  mergeAll ∅ pairs !! p = Some r -> (p, r) ∈ pairs.
Proof.
  induction pairs as [|[q r'] pairs IH] using rev_ind.
  - unfold mergeAll. cbn [foldl]. by rewrite lookup_empty.
  - rewrite mergeAll_snoc, lookup_insert. case_decide as E.
    + intros [= ->]. subst. set_solver.
    + intros ?%IH. set_solver.
Qed.

(** With tokens that tell the phrases apart, the dictionary holds what the
    tree stores, under the phrase instead of its tokens. *)
Lemma latest_mergeAll calls key r :
  (forall p q, p ∈ calls.*1 -> q ∈ calls.*1 ->
               tokenize p = tokenize q -> p = q) ->
  latest calls key = Some r <->
  exists p, tokenize p = key /\ mergeAll ∅ calls !! p = Some r.
Proof.
  induction calls as [|[q r'] calls IH] using rev_ind; intros Hinj.
  - unfold mergeAll, latest. cbn [foldl]. split; [done|].
    intros (p & _ & Hp). by rewrite lookup_empty in Hp.
  - rewrite latest_snoc, mergeAll_snoc. cbn [fst snd].
    assert (Hq : q ∈ (calls ++ [(q, r')]).*1).
    { rewrite fmap_app. set_solver. }
    assert (Hinj' : forall p1 p2, p1 ∈ calls.*1 -> p2 ∈ calls.*1 ->
                      tokenize p1 = tokenize p2 -> p1 = p2).
    { intros p1 p2 H1 H2. apply Hinj; rewrite fmap_app; set_solver. }
    specialize (IH Hinj'). case_decide as Hkey.
    + split.
      * intros [= ->]. exists q. by rewrite lookup_insert_eq.
      * intros (p & Hp & Hlook). rewrite lookup_insert in Hlook.
        case_decide as E; [congruence|].
        apply mergeAll_lookup_Some in Hlook.
        assert (p = q); [|done]. apply Hinj; [|done|congruence].
        rewrite fmap_app. apply elem_of_app. left.
        apply list_elem_of_fmap. by exists (p, r).
    + rewrite IH. split.
      * intros (p & Hp & Hlook). exists p. split; [done|].
        rewrite lookup_insert_ne; [done | congruence].
      * intros (p & Hp & Hlook). exists p. split; [done|].
        rewrite lookup_insert_ne in Hlook; [done | congruence].
Qed.

Lemma latest_NoDup saved key r :
  NoDup saved.*1 ->
  (forall p q, p ∈ saved.*1 -> q ∈ saved.*1 ->
               tokenize p = tokenize q -> p = q) ->
  latest saved key = Some r <->
  exists p, tokenize p = key /\ (p, r) ∈ saved.
Proof.
  intros Hnd Hinj. rewrite latest_mostRecent. split.
  - intros (before & p & after & -> & Hp & _). exists p. set_solver.
  - intros (p & Hp & (before & after & ->)%list_elem_of_split).
    exists before, p, after. split_and!; [done..|].
    apply Forall_forall. intros [q r'] Hin Hq. cbn [fst] in *.
    rewrite fmap_app, fmap_cons in Hnd. cbn [fst] in Hnd.
    apply NoDup_app in Hnd as (_ & _ & [Hfresh _]%NoDup_cons).
    apply Hfresh. assert (q = p) as <-.
    { apply Hinj; [| |congruence]; rewrite fmap_app, fmap_cons;
        cbn [fst]; [|set_solver].
      apply elem_of_app. right. right. apply list_elem_of_fmap. by exists (q, r'). }
    apply list_elem_of_fmap. by exists (q, r').
Qed.

(** C7 (as the code has it): when no two inserted phrases have the same
    tokens, a tree hydrated from the dictionary, in any order of its
    entries, answers every query as the original tree does. *)
Theorem hydrate_round_trip calls savedEntries :
  (forall p q, p ∈ calls.*1 -> q ∈ calls.*1 ->
               tokenize p = tokenize q -> p = q) ->
  savedEntries ≡ₚ map_to_list (mergeAll ∅ calls) ->
  forall ws i,
    findLongestMatch (hydrate savedEntries) ws i =
    findLongestMatch (build calls) ws i.
Proof.
  intros Hinj Hperm. apply findLongestMatch_ext. intros key.
  assert (Hin : forall p r, (p, r) ∈ savedEntries <->
                            mergeAll ∅ calls !! p = Some r).
  { intros p r. by rewrite Hperm, elem_of_map_to_list. }
  assert (Hnd : NoDup savedEntries.*1).
  { rewrite Hperm. apply NoDup_fst_map_to_list. }
  assert (Hinj' : forall p q, p ∈ savedEntries.*1 -> q ∈ savedEntries.*1 ->
                    tokenize p = tokenize q -> p = q).
  { intros p q ([p1 r1] & -> & H1)%list_elem_of_fmap
      ([p2 r2] & -> & H2)%list_elem_of_fmap.
    apply Hin, mergeAll_lookup_Some in H1. apply Hin, mergeAll_lookup_Some in H2.
    apply Hinj; apply list_elem_of_fmap; by eexists (_, _). }
  apply option_eq. intros r.
  rewrite (latest_NoDup _ _ _ Hnd Hinj'), (latest_mergeAll _ _ _ Hinj).
  by setoid_rewrite Hin.
Qed.

Lemma hydrate_round_trip_witness :
  findLongestMatch (hydrate [("big", "grande"); ("one cat", "un gato")])
                   ["one"; "cat"; "is"] 0 =
  findLongestMatch (build [("one cat", "un gato"); ("big", "grande")])
                   ["one"; "cat"; "is"] 0.
Proof.
  apply (hydrate_round_trip
           [("one cat", "un gato"); ("big", "grande")]
           [("big", "grande"); ("one cat", "un gato")]).
  - intros p q Hp Hq. cbn [fmap list_fmap fst] in Hp, Hq. set_unfold.
    destruct Hp as [->|[->|[]]], Hq as [->|[->|[]]]; vm_compute; done.
  - vm_compute map_to_list. apply Permutation_swap.
Defined.

(** C7 (counterexample): the phrases ["a"] and [" a"] are two keys of the
    dictionary and one token sequence of the tree; hydrating in the other
    order brings the older replacement back. *)
Lemma hydrate_round_trip_counterexample :
  [(" a", "y"); ("a", "x")] ≡ₚ
    map_to_list (mergeAll ∅ [("a", "x"); (" a", "y")]) /\
  findLongestMatch (hydrate [(" a", "y"); ("a", "x")]) ["a"] 0 <>
  findLongestMatch (build [("a", "x"); (" a", "y")]) ["a"] 0.
Proof.
  split.
  - vm_compute map_to_list. apply Permutation_swap.
  - vm_compute. discriminate.
Qed.

(** ** Tokens of blank and of single-spaced phrases *)

Lemma trimStart_blank s : isBlank s = true -> Js.trimStart s = EmptyString.
Proof.
  induction s as [|c s IH]; simpl; [done|].
  intros [-> Hs]%andb_true_iff. by apply IH.
Qed.

Lemma trim_blank s : isBlank s = true -> Js.trim s = EmptyString.
Proof. intros Hs. unfold Js.trim. by rewrite trimStart_blank. Qed.

Lemma tokenize_blank p : isBlank p = true -> tokenize p = [EmptyString].
Proof. intros Hp. unfold tokenize. by rewrite trim_blank. Qed.

(** C5 (as the code has it): an empty or blank phrase is not refused; its
    tokens are the one empty word, which [insert] stores like any other
    phrase and which is found afterwards. *)
Theorem insert_blank_phrase_stored calls p r :
  isBlank p = true ->
  tokenize p = [EmptyString] /\
  findLongestMatch (insert (build calls) p r) [EmptyString] 0 =
  Some (1, Some r).
Proof.
  intros Hp. pose proof (tokenize_blank p Hp) as Htok. split; [done|].
  rewrite <- build_snoc, <- Htok.
  rewrite (findLongestMatch_exact (calls ++ [(p, r)]) (tokenize p) r).
  - by rewrite Htok.
  - by exists calls, p, [].
Qed.

Lemma insert_blank_phrase_stored_witness :
  tokenize "   " = [EmptyString] /\
  findLongestMatch (insert (build [("one cat", "un gato")]) "   " "nada")
                   [EmptyString] 0 =
  Some (1, Some "nada").
Proof.
  apply (insert_blank_phrase_stored [("one cat", "un gato")] "   " "nada").
  reflexivity.
Defined.

(** C5 (counterexample): inserting the empty phrase into a fresh tree
    adds a node and a stored phrase. *)
Lemma insert_empty_phrase_counterexample :
  insert newTree EmptyString "nada" =
    mkNode [] None false
      [(EmptyString, mkNode [EmptyString] (Some "nada") true [])] /\
  length (nodes (insert newTree EmptyString "nada")) = 2%nat /\
  length (nodes newTree) = 1%nat /\
  entries (insert newTree EmptyString "nada") = [([EmptyString], Some "nada")].
Proof. by split_and!. Qed.

Lemma trimEnd_blank s : isBlank s = true -> Js.trimEnd s = EmptyString.
Proof.
  induction s as [|c s IH]; simpl; [done|].
  intros [-> Hs]%andb_true_iff. by rewrite IH.
Qed.

Lemma trimStart_app_blank lead s :
  isBlank lead = true -> Js.trimStart (lead +:+ s) = Js.trimStart s.
Proof.
  induction lead as [|c lead IH]; simpl; [done|].
  intros [-> Hs]%andb_true_iff. by apply IH.
Qed.

Lemma trimEnd_app_blank s trail :
  isBlank trail = true -> Js.trimEnd (s +:+ trail) = Js.trimEnd s.
Proof.
  intros Ht. induction s as [|c s IH]; simpl; [by apply trimEnd_blank|].
  by rewrite IH.
Qed.

Lemma trimEnd_app a b :
  Js.trimEnd b <> EmptyString -> Js.trimEnd (a +:+ b) = a +:+ Js.trimEnd b.
Proof.
  intros Hb. induction a as [|c a IH]; simpl; [done|]. rewrite IH.
  change (String c a +:+ Js.trimEnd b) with (String c (a +:+ Js.trimEnd b)).
  destruct (a +:+ Js.trimEnd b) eqn:E; [|done].
  destruct a; simpl in E; done.
Qed.

Lemma trimEnd_noWhiteSpace w : hasNoWhiteSpace w = true -> Js.trimEnd w = w.
Proof.
  induction w as [|c w IH]; simpl; [done|].
  intros [Hc%negb_true_iff Hw]%andb_true_iff. rewrite IH, Hc by done.
  by destruct w.
Qed.

Lemma noWhiteSpace_space c :
  Js.isWhiteSpace c = false -> Ascii.eqb c " " = false.
Proof. destruct (Ascii.eqb_spec c " ") as [->|]; [by vm_compute | done]. Qed.

Lemma split_noWhiteSpace w :
  hasNoWhiteSpace w = true -> Js.split " " w = [w].
Proof.
  induction w as [|c w IH]; simpl; [done|].
  intros [Hc%negb_true_iff Hw]%andb_true_iff.
  by rewrite (noWhiteSpace_space _ Hc), IH.
Qed.

Lemma split_app_noWhiteSpace w s :
  hasNoWhiteSpace w = true ->
  Js.split " " (w +:+ String " " s) = w :: Js.split " " s.
Proof.
  induction w as [|c w IH]; simpl; [done|].
  intros [Hc%negb_true_iff Hw]%andb_true_iff.
  by rewrite (noWhiteSpace_space _ Hc), IH.
Qed.

Lemma isWord_noWhiteSpace w : isWord w = true -> hasNoWhiteSpace w = true.
Proof. by destruct w. Qed.

Lemma join_cons_cons sep w w' ws :
  Js.join sep (w :: w' :: ws) = w +:+ sep +:+ Js.join sep (w' :: ws).
Proof. done. Qed.

Lemma join_words_first words :
  words <> [] -> Forall (fun w => isWord w = true) words ->
  exists c s, Js.join " " words = String c s /\ Js.isWhiteSpace c = false.
Proof.
  destruct words as [|w words]; [done|]. intros _ [Hw _]%Forall_cons.
  destruct w as [|c w]; [done|]. simpl in Hw.
  apply andb_true_iff in Hw as [Hc%negb_true_iff _].
  destruct words; [by exists c, w|].
  rewrite join_cons_cons. by eexists c, _.
Qed.

Lemma trimEnd_join_words words :
  words <> [] -> Forall (fun w => isWord w = true) words ->
  Js.trimEnd (Js.join " " words) = Js.join " " words.
Proof.
  induction words as [|w words IH]; [done|]. intros _ [Hw Hws]%Forall_cons.
  destruct words as [|w' words].
  - by apply trimEnd_noWhiteSpace, isWord_noWhiteSpace.
  - rewrite join_cons_cons. specialize (IH ltac:(done) Hws).
    destruct (join_words_first (w' :: words) ltac:(done) Hws) as (c & s & E & _).
    assert (Hne : Js.trimEnd (Js.join " " (w' :: words)) <> EmptyString).
    { by rewrite IH, E. }
    rewrite trimEnd_app.
    + f_equal. rewrite (trimEnd_app " " _ Hne). by rewrite IH.
    + rewrite (trimEnd_app " " _ Hne). done.
Qed.

Lemma split_join_words words :
  words <> [] -> Forall (fun w => isWord w = true) words ->
  Js.split " " (Js.join " " words) = words.
Proof.
  induction words as [|w words IH]; [done|]. intros _ [Hw Hws]%Forall_cons.
  apply isWord_noWhiteSpace in Hw. destruct words as [|w' words].
  - by apply split_noWhiteSpace.
  - rewrite join_cons_cons.
    change (w +:+ " " +:+ Js.join " " (w' :: words))
      with (w +:+ String " " (Js.join " " (w' :: words))).
    rewrite split_app_noWhiteSpace by done. f_equal. by apply IH.
Qed.

(** The tokens of words joined by single spaces, with white space of any
    kind around, are the words. *)
Lemma tokenize_single_spaced lead words trail :
  words <> [] -> Forall (fun w => isWord w = true) words ->
  isBlank lead = true -> isBlank trail = true ->
  tokenize (lead +:+ Js.join " " words +:+ trail) = words.
Proof.
  intros Hne Hws Hlead Htrail. unfold tokenize, Js.trim.
  rewrite trimStart_app_blank by done.
  destruct (join_words_first words Hne Hws) as (c & s & E & Hc).
  assert (Hstart : Js.trimStart (Js.join " " words +:+ trail)
                   = Js.join " " words +:+ trail).
  { rewrite E. simpl. by rewrite Hc. }
  rewrite Hstart, trimEnd_app_blank, trimEnd_join_words by done.
  by apply split_join_words.
Qed.

Lemma append_empty_r s : s +:+ EmptyString = s.
Proof.
  induction s as [|c s IH]; [done|].
  change (String c (s +:+ EmptyString) = String c s). by rewrite IH.
Qed.

(** The samples of [getRandomWordsFromWords], words joined by single
    spaces, are told apart by their tokens. *)
Lemma tokenize_sample words :
  words <> [] -> Forall (fun w => isWord w = true) words ->
  tokenize (Js.join " " words) = words.
Proof.
  intros Hne Hws.
  pose proof (tokenize_single_spaced EmptyString words EmptyString Hne Hws
                eq_refl eq_refl) as E.
  by rewrite append_empty_r in E.
Qed.

(** C9 (as the code has it): [insert] stores [phrase.trim().split(" ")].
    For words joined by single spaces, with white space of any kind before
    and after, these are the words: every such phrase with the same words
    is stored as, and found by, the same word sequence. *)
Theorem insert_single_spaced_phrase calls lead words trail r :
  words <> [] -> Forall (fun w => isWord w = true) words ->
  isBlank lead = true -> isBlank trail = true ->
  let phrase' := lead +:+ Js.join " " words +:+ trail in
  tokenize phrase' = words /\
  findLongestMatch (insert (build calls) phrase' r) words 0 =
  Some (Z.of_nat (length words), Some r).
Proof.
  intros Hne Hws Hlead Htrail phrase'.
  pose proof (tokenize_single_spaced lead words trail Hne Hws Hlead Htrail)
    as Htok. fold phrase' in Htok. split; [done|].
  rewrite <- build_snoc, <- Htok. apply findLongestMatch_exact.
  by exists calls, phrase', [].
Qed.

Lemma insert_single_spaced_phrase_witness :
  tokenize ("  " +:+ Js.join " " ["one"; "cat"] +:+ " ") = ["one"; "cat"] /\
  findLongestMatch
    (insert (build [("one", "uno")])
            ("  " +:+ Js.join " " ["one"; "cat"] +:+ " ") "un gato")
    ["one"; "cat"] 0 =
  Some (Z.of_nat (length ["one"; "cat"]), Some "un gato").
Proof.
  apply (insert_single_spaced_phrase
           [("one", "uno")] "  " ["one"; "cat"] " " "un gato");
    [discriminate | by repeat constructor | reflexivity | reflexivity].
Defined.

(** C9 (counterexample): two spaces between the words give three tokens,
    the middle one empty, and the phrase is no longer found by its two
    words; a tab between the words gives one token. *)
Lemma tokenize_whitespace_counterexample :
  tokenize "one  cat" = ["one"; EmptyString; "cat"] /\
  findLongestMatch (insert newTree "one  cat" "un gato") ["one"; "cat"] 0
    = None /\
  findLongestMatch (insert newTree "one cat" "un gato") ["one"; "cat"] 0
    = Some (2, Some "un gato") /\
  tokenize ("one" +:+ String "009" "cat") = ["one" +:+ String "009" "cat"].
Proof. by split_and!. Qed.

(** ** The query leaves the nodes alone *)

Lemma height_children n :
  Forall (fun kc => (height kc.2 < height n)%nat) (children n).
Proof.
  destruct n as [ph rp e cs]. cbn [children height].
  induction cs as [|[k c] cs IH]; constructor; cbn [snd].
  - lia.
  - eapply Forall_impl; [done|]. intros [k' c']; cbn [snd]. lia.
Qed.

Lemma load_Some (h : Heap.Store) r o : h !! r = Some o -> Heap.load r h = Some (o, h).
Proof. unfold Heap.load. by intros ->. Qed.

(** The loop over the child references computes what the loop over the
    children computes, and hands back the store it was given. *)
Lemma findInChildren_refines h recurse recurse' words index ocs cs :
  Forall2 (fun kr kc =>
             exists o, h !! kr.2 = Some o /\ Heap.o_phrase o = phrase kc.2 /\
                       recurse kr.2 o h = Some (recurse' kc.2, h)) ocs cs ->
  forall best,
    Heap.findInChildren recurse words index ocs best h =
    Some (findInChildren recurse' words index cs best, h).
Proof.
  induction 1 as [|[k r] [k' c] ocs cs (o & Ho & Hph & Hrec) _ IH];
    intros best; [done|].
  cbn [Heap.findInChildren findInChildren snd] in *.
  unfold Heap.bind at 1. rewrite (load_Some _ _ _ Ho), Hph.
  destruct (_ <? _); [apply IH|].
  destruct (phraseMatches _ _ _); [|apply IH].
  unfold Heap.bind at 1. rewrite Hrec. apply IH.
Qed.

(** On the objects of a tree, and with fuel for its height, the walk
    through the store returns what [findLongestMatchRecursive] computes on
    the tree, together with the store as it was. *)
Lemma findLongestMatchRecursive_refines h t :
  forall r fuel words index m,
    Heap.represents h r t -> (height t <= fuel)%nat ->
    Heap.findLongestMatchRecursive fuel r words index m h =
    Some (findLongestMatchRecursive t words index m, h).
Proof.
  induction t as [ph rp e cs IH] using RadixNode_ind'.
  intros r fuel words index m Hrep Hfuel.
  inversion Hrep as [r' o t' Ho Hph Hrp He Hcs]; subst r' t'.
  cbn [phrase replacement isEndOfWord children] in *.
  destruct fuel as [|fuel]; [cbn in Hfuel; lia|].
  rewrite findLongestMatchRecursive_eq.
  cbn [Heap.findLongestMatchRecursive phrase replacement isEndOfWord children].
  unfold Heap.bind at 1. rewrite (load_Some _ _ _ Ho), Hrp, He. cbv zeta.
  destruct (_ <=? _); [done|].
  apply findInChildren_refines.
  assert (Hh : Forall (fun kc => (height kc.2 <= fuel)%nat) cs).
  { eapply Forall_impl; [apply (height_children (mkNode ph rp e cs))|].
    intros kc; cbn beta. lia. }
  clear Hrep Ho Hfuel. revert IH Hh.
  induction Hcs as [|[k r'] [k' c] ocs cs' [_ Hrc] Hcs IHcs];
    intros IH Hh; [constructor|].
  apply Forall_cons in IH as [IHc IH]. apply Forall_cons in Hh as [Hhc Hh].
  cbn [snd] in *. constructor; [|by apply IHcs].
  inversion Hrc as [r'' o' t'' Ho' Hph' _ _ _]; subst r'' t''.
  exists o'. split_and!; [done..|]. rewrite Hph'. by apply IHc.
Qed.

(** C10: a call of [findLongestMatch] on the objects of a tree returns,
    and the store it leaves is the store it found: every node has the
    label, the replacement, the marker and the children it had. *)
Theorem findLongestMatch_reads_only h root t fuel words startIndex :
  Heap.represents h root t -> (height t <= fuel)%nat ->
  Heap.findLongestMatch fuel root words startIndex h =
  Some (findLongestMatch t words startIndex, h).
Proof. intros Hrep Hfuel. by apply findLongestMatchRecursive_refines. Qed.

Lemma findLongestMatch_reads_only_witness :
  Heap.findLongestMatch 3 0%nat ["one"; "cat"; "is"; "here"] 0 exampleStore =
  Some (findLongestMatch exampleTree ["one"; "cat"; "is"; "here"] 0,
        exampleStore).
Proof.
  apply (findLongestMatch_reads_only exampleStore 0%nat exampleTree 3).
  - eapply Heap.represents_node; [reflexivity..|].
    constructor; [|constructor]. split; [reflexivity|].
    eapply Heap.represents_node; [reflexivity..|].
    constructor; [|constructor]. split; [reflexivity|].
    eapply Heap.represents_node; [reflexivity..|]. constructor.
  - vm_compute. lia.
Defined.

(** Whatever the object graph, a walk that returns hands back the store
    it was given. *)
Lemma findInChildren_frame recurse words index :
  (forall r o h res h', recurse r o h = Some (res, h') -> h' = h) ->
  forall cs best h res h',
    Heap.findInChildren recurse words index cs best h = Some (res, h') ->
    h' = h.
Proof.
  intros Hrec. induction cs as [|[k r] cs IH]; intros best h res h'.
  - by intros [= _ <-].
  - cbn [Heap.findInChildren]. unfold Heap.bind at 1, Heap.load.
    destruct (h !! r) as [o|]; [|done].
    destruct (_ <? _); [apply IH|].
    destruct (phraseMatches _ _ _); [|apply IH].
    unfold Heap.bind at 1.
    destruct (recurse r o h) as [[m h1]|] eqn:Hr; [|done].
    apply Hrec in Hr as ->. apply IH.
Qed.

Lemma findLongestMatchRecursive_frame fuel :
  forall r words index m h res h',
    Heap.findLongestMatchRecursive fuel r words index m h = Some (res, h') ->
    h' = h.
Proof.
  induction fuel as [|fuel IH]; intros r words index m h res h'; [done|].
  cbn [Heap.findLongestMatchRecursive]. unfold Heap.bind at 1, Heap.load.
  destruct (h !! r) as [o|]; [|done]. cbv zeta.
  destruct (_ <=? _); [by intros [= _ <-]|].
  apply findInChildren_frame. intros r' o' h1 res1 h1'. apply IH.
Qed.

(** * Further properties of the code *)

(** ** [findCommonPrefix] *)

(** X1: [findCommonPrefix] is the length of the longest common prefix:
    the two arrays agree on that many words, it exceeds neither length,
    and where both arrays go on, the next words differ. *)
Theorem findCommonPrefix_longest a b :
  let k := findCommonPrefix a b in
  (k <= length a)%nat /\ (k <= length b)%nat /\
  take k a = take k b /\
  ((k < length a)%nat -> (k < length b)%nat -> a !! k <> b !! k).
Proof.
  intros k. split_and!.
  - apply findCommonPrefix_le_l.
  - apply findCommonPrefix_le_r.
  - apply findCommonPrefix_take.
  - intros Ha Hb. pose proof (findCommonPrefix_stop a b Ha Hb) as Hstop.
    fold k in Hstop. rewrite !head_lookup, !lookup_drop, !Nat.add_0_r in Hstop.
    done.
Qed.

(** X2: the common prefix does not depend on the order of the two
    arrays, and an array shares all its words with itself. *)
Theorem findCommonPrefix_comm a b :
  findCommonPrefix a b = findCommonPrefix b a /\
  findCommonPrefix a a = length a.
Proof.
  split.
  - revert b; induction a as [|x a IH]; intros [|y b]; simpl; try done.
    rewrite (String.eqb_sym y x). destruct (String.eqb x y); [|done].
    by rewrite IH.
  - induction a as [|x a IH]; simpl; [done|].
    by rewrite String.eqb_refl, IH.
Qed.

(** ** Shape of the trees that [insert] builds *)

(** X3: in a tree built by [insert] calls, the root has an empty label and
    is no end of a phrase; every node holds a replacement exactly when it
    is marked as the end of a phrase; every child stands in the map of its
    parent under the first word of its label, and the keys of a map are
    pairwise different. *)
Theorem build_shape calls :
  phrase (build calls) = [] /\ isEndOfWord (build calls) = false /\
  Forall (fun n =>
            (isEndOfWord n = true <-> is_Some (replacement n)) /\
            NoDup (children n).*1 /\
            Forall (fun kc => head (phrase kc.2) = Some kc.1) (children n))
         (nodes (build calls)).
Proof.
  destruct (build_root calls) as (Hwf & Hph & Hend). split_and!; [done..|].
  eapply Forall_impl; [by apply wf_nodes|].
  intros n (Hmark & Hnd & Hcs)%wf_inv. split_and!; [done..|].
  eapply Forall_impl; [done|]. by intros kc [? _].
Qed.

(** ** Inserting again *)

Lemma findCommonPrefix_self a : findCommonPrefix a a = length a.
Proof.
  induction a as [|x a IH]; simpl; [done|]. by rewrite String.eqb_refl, IH.
Qed.

Lemma findCommonPrefix_take_l k a :
  (k <= length a)%nat -> findCommonPrefix (take k a) a = k.
Proof.
  revert k; induction a as [|x a IH]; intros [|k]; simpl; try done; try lia.
  intros Hk. rewrite String.eqb_refl, IH; [done | lia].
Qed.

Lemma insertRecursive_phrase n words index r :
  phrase (insertRecursive n words index r) = phrase n.
Proof.
  rewrite insertRecursive_eq. destruct (drop index words); [done|].
  by destruct (insertIntoChildren _ _ _ _).
Qed.

Lemma insertRecursive_end n words index r :
  drop index words = [] ->
  insertRecursive n words index r =
  mkNode (phrase n) (Some r) true (children n).
Proof. intros E. by rewrite insertRecursive_eq, E. Qed.

Lemma insertIntoChildren_hit recurse rem r pre key child post :
  Forall (fun kc => findCommonPrefix (phrase kc.2) rem = 0%nat) pre ->
  (0 < findCommonPrefix (phrase child) rem)%nat ->
  insertIntoChildren recurse rem r (pre ++ (key, child) :: post) =
  Some (pre ++
    (key,
     let k := findCommonPrefix (phrase child) rem in
     if (k =? length (phrase child))%nat then recurse child k
     else if (k =? length rem)%nat then splitShorter child rem k r
     else splitBoth child rem k r) :: post).
Proof.
  intros Hpre Hpos. induction Hpre as [|[k c] pre Hc Hpre IH].
  - cbn [app insertIntoChildren].
    by destruct (Nat.ltb_spec 0 (findCommonPrefix (phrase child) rem)); [|lia].
  - cbn [app insertIntoChildren snd] in *. rewrite Hc. cbn [Nat.ltb Nat.leb].
    by rewrite IH.
Qed.

Lemma splitShorter_again child rem k r1 r2 words index :
  drop index words = rem -> rem <> [] ->
  insertRecursive (splitShorter child rem k r1) words
                  (index + length rem) r2 =
  splitShorter child rem k r2.
Proof.
  intros Hrem Hne. rewrite insertRecursive_end; [done|].
  by rewrite <- drop_drop, Hrem, drop_all.
Qed.

Lemma splitBoth_again child rem k r1 r2 words index :
  drop index words = rem ->
  (k < length (phrase child))%nat -> (k < length rem)%nat ->
  head (drop k (phrase child)) <> head (drop k rem) ->
  insertRecursive (splitBoth child rem k r1) words (index + k) r2 =
  splitBoth child rem k r2.
Proof.
  intros Hrem Hk1 Hk2 Hhd. rewrite insertRecursive_eq.
  rewrite <- drop_drop, Hrem. unfold splitBoth at 1 2 3 4 5. cbn [phrase children
    replacement isEndOfWord]. unfold splitBoth.  cbn [phrase].
  destruct (drop k (phrase child)) as [|key1 suffix1] eqn:Hd1.
  { apply (f_equal length) in Hd1. rewrite length_drop in Hd1. simpl in Hd1. lia. }
  destruct (drop k rem) as [|key2 suffix2] eqn:Hd2.
  { apply (f_equal length) in Hd2. rewrite length_drop in Hd2. simpl in Hd2. lia. }
  assert (Hkeys : key1 <> key2) by (simpl in Hhd; congruence).
  cbn [Js.mapSet]. destruct (String.eqb_spec key1 key2) as [|_]; [done|].
  cbn [insertIntoChildren phrase findCommonPrefix].
  destruct (String.eqb_spec key1 key2) as [|_]; [done|].
  cbn [Nat.ltb Nat.leb]. rewrite String.eqb_refl, findCommonPrefix_self.
  cbn [Nat.ltb Nat.leb length Nat.eqb]. rewrite Nat.eqb_refl.
  rewrite insertRecursive_end; [done|].
  rewrite <- Nat.add_assoc, <- !drop_drop, Hrem, Hd2.
  change (S (length suffix2)) with (length (key2 :: suffix2)). apply drop_all.
Qed.

(** A second insertion of the same words only replaces the replacement. *)
Lemma insertRecursive_overwrite n :
  forall words index r1 r2,
    wf n ->
    insertRecursive (insertRecursive n words index r1) words index r2 =
    insertRecursive n words index r2.
Proof.
  induction n as [ph rp e cs IH] using RadixNode_ind'.
  intros words index r1 r2 Hwf.
  pose proof Hwf as (_ & Hnd & Hcs)%wf_inv. cbn [children] in Hnd, Hcs.
  rewrite (insertRecursive_eq (mkNode ph rp e cs) words index r1).
  rewrite (insertRecursive_eq (mkNode ph rp e cs) words index r2).
  cbn [phrase replacement isEndOfWord children].
  destruct (drop index words) as [|w rem'] eqn:Hrem.
  { by rewrite insertRecursive_end. }
  rewrite <- Hrem.
  assert (Hne : drop index words <> []) by (by rewrite Hrem).
  destruct (insertIntoChildren _ _ r1 cs) as [cs1|] eqn:Hloop.
  - apply insertIntoChildren_Some in Hloop
      as (pre & key & child & post & -> & Hpre & Hpos & ->).
    rewrite (insertIntoChildren_hit _ _ r2 pre key child post Hpre Hpos).
    rewrite insertRecursive_eq, Hrem, <- Hrem.
    cbn [phrase replacement isEndOfWord children].
    apply Forall_app in Hcs as [_ Hcs].
    apply Forall_cons in Hcs as [[_ Hwfc] _]. cbn [snd] in Hwfc.
    apply Forall_app in IH as [_ IH]. apply Forall_cons in IH as [IHc _].
    cbn [snd] in IHc. cbv zeta.
    set (k := findCommonPrefix (phrase child) (drop index words)) in *.
    pose proof (findCommonPrefix_le_l (phrase child) (drop index words)) as Hle1.
    pose proof (findCommonPrefix_le_r (phrase child) (drop index words)) as Hle2.
    fold k in Hle1, Hle2.
    destruct (Nat.eqb_spec k (length (phrase child))) as [Hfull|Hnfull].
    + rewrite insertIntoChildren_hit;
        [|done|by rewrite insertRecursive_phrase].
      rewrite insertRecursive_phrase. fold k. cbv zeta.
      rewrite <- Hfull, Nat.eqb_refl. by rewrite IHc.
    + destruct (Nat.eqb_spec k (length (drop index words))) as [Hshort|Hnshort].
      * assert (Hph1 : phrase (splitShorter child (drop index words) k r1)
                       = drop index words) by done.
        rewrite insertIntoChildren_hit; [|done|].
        2:{ rewrite Hph1, findCommonPrefix_self.
            destruct (drop index words); [done | simpl; lia]. }
        cbv zeta. rewrite Hph1, findCommonPrefix_self, Nat.eqb_refl.
        by rewrite (splitShorter_again child _ k r1 r2 words index).
      * assert (Hph1 : phrase (splitBoth child (drop index words) k r1)
                       = take k (drop index words)) by done.
        rewrite insertIntoChildren_hit; [|done|].
        2:{ by rewrite Hph1, findCommonPrefix_take_l. }
        cbv zeta. rewrite Hph1, findCommonPrefix_take_l by done.
        rewrite length_take, Nat.min_l, Nat.eqb_refl by done.
        rewrite (splitBoth_again child _ k r1 r2 words index); [done..|lia|lia|].
        apply findCommonPrefix_stop; fold k; lia.
  - pose proof Hloop as Hzero%insertIntoChildren_None.
    destruct (insertIntoChildren _ _ r2 cs) as [cs2|] eqn:Hloop2.
    { apply insertIntoChildren_Some in Hloop2
        as (pre & key & child & post & -> & _ & Hpos & _).
      apply Forall_app in Hzero as [_ [Hz _]%Forall_cons]. cbn [snd] in Hz. lia. }
    assert (Hw : w ∉ cs.*1).
    { intros ([k c] & -> & Hin)%list_elem_of_fmap. cbn [fst] in *.
      rewrite Forall_forall in Hzero, Hcs.
      specialize (Hzero _ Hin). destruct (Hcs _ Hin) as [Hk _].
      cbn [fst snd] in *.
      assert (0 < findCommonPrefix (phrase c) (drop index words))%nat; [|lia].
      apply findCommonPrefix_pos. exists k. by rewrite Hrem. }
    rewrite !mapSet_fresh by done.
    rewrite insertRecursive_eq, Hrem, <- Hrem.
    cbn [phrase replacement isEndOfWord children].
    rewrite insertIntoChildren_hit; [|done|].
    2:{ cbn [phrase]. rewrite findCommonPrefix_self, Hrem. simpl. lia. }
    cbv zeta. cbn [phrase]. rewrite findCommonPrefix_self, Nat.eqb_refl.
    rewrite insertRecursive_end; [done|].
    by rewrite <- drop_drop, drop_all.
Qed.

(** X4: inserting a phrase a second time changes nothing in the tree but
    the replacement of its node: the tree is the one that the second
    insertion alone gives; with the same replacement, the tree stays as
    it is. *)
Theorem insert_overwrite calls p r1 r2 :
  insert (insert (build calls) p r1) p r2 = insert (build calls) p r2 /\
  insert (insert (build calls) p r1) p r1 = insert (build calls) p r1.
Proof.
  destruct (build_root calls) as (Hwf & _ & _).
  split; by apply insertRecursive_overwrite.
Qed.

(** ** Order of insertions, number of stored phrases *)

(** X5: two insertions of phrases with different tokens can be swapped:
    the two trees answer every query alike. *)
Theorem insert_commute calls p r q s ws i :
  tokenize p <> tokenize q ->
  findLongestMatch (insert (insert (build calls) p r) q s) ws i =
  findLongestMatch (insert (insert (build calls) q s) p r) ws i.
Proof.
  intros Hne. rewrite <- !build_snoc. apply findLongestMatch_ext.
  intros key. rewrite !latest_snoc. cbn [fst snd].
  repeat case_decide; congruence.
Qed.

Lemma insert_commute_witness :
  findLongestMatch
    (insert (insert (build [("one", "uno")]) "big cat" "gato grande")
            "big dog" "perro grande")
    ["big"; "cat"] 0 =
  findLongestMatch
    (insert (insert (build [("one", "uno")]) "big dog" "perro grande")
            "big cat" "gato grande")
    ["big"; "cat"] 0.
Proof.
  apply (insert_commute [("one", "uno")] "big cat" "gato grande"
           "big dog" "perro grande").
  vm_compute. discriminate.
Defined.

Lemma elem_of_entries_keys calls key :
  key ∈ (entries (build calls)).*1 <->
  key ∈ tokenize <$> calls.*1.
Proof.
  rewrite !list_elem_of_fmap. split.
  - intros ([k v] & -> & (r & -> & Hr)%build_entries). cbn [fst].
    destruct (proj1 (latest_is_Some calls k) ltac:(by eexists))
      as (p & r' & Hin & Hp).
    exists p. split; [done|]. apply list_elem_of_fmap. by exists (p, r').
  - intros (p & -> & ([p' r] & -> & Hin)%list_elem_of_fmap). cbn [fst].
    destruct (proj2 (latest_is_Some calls (tokenize p'))) as [r' Hr']; [by eauto|].
    exists (tokenize p', Some r'). split; [done|]. apply build_entries. eauto.
Qed.

(** X6: the root-to-node labels of the end-of-word nodes of a built tree
    are the token sequences that were inserted, each of them once, however
    often and in whatever order it was inserted; so there are as many
    end-of-word nodes as different token sequences. *)
Theorem endNodes_count calls :
  (endNodes (build calls)).*1 ≡ₚ remove_dups (tokenize <$> calls.*1) /\
  NoDup (endNodes (build calls)).*1 /\
  length (endNodes (build calls)) =
  length (remove_dups (tokenize <$> calls.*1)).
Proof.
  destruct (build_root calls) as (Hwf & Hph & _).
  rewrite endNodes_root by done.
  assert (Hperm : (entries (build calls)).*1 ≡ₚ
                  remove_dups (tokenize <$> calls.*1)).
  { apply NoDup_Permutation.
    - by apply NoDup_entries.
    - apply NoDup_remove_dups.
    - intros key. by rewrite elem_of_entries_keys, elem_of_remove_dups. }
  split_and!; [done | by apply NoDup_entries |].
  rewrite <- (length_fmap fst (entries (build calls))).
  by apply Permutation_length.
Qed.

(** ** What a match can be *)

Lemma findLongestMatch_Some_inv calls ws i k v :
  findLongestMatch (build calls) ws i = Some (k, v) ->
  0 <= i /\
  exists key r,
    v = Some r /\ k = Z.of_nat (length key) /\ key <> [] /\
    (key, Some r) ∈ entries (build calls) /\
    key `prefix_of` drop (Z.to_nat i) ws.
Proof.
  destruct (build_root calls) as (Hwf & _ & Hend). unfold findLongestMatch.
  destruct (Z.lt_ge_cases i 0) as [Hneg|Hi].
  { by rewrite findLongestMatchRecursive_negative, Hend. }
  pose proof (findLongestMatchRecursive_spec (build calls) ws i 0 Hwf Hi)
    as Hspec.
  intros E. rewrite E in Hspec. destruct Hspec as (key & Hin & Hp & -> & _).
  split; [done|].
  pose proof Hin as (r & -> & Hr)%build_entries.
  exists key, r. split_and!; [done|lia| |done|done].
  apply latest_mostRecent in Hr as (? & p & ? & _ & <- & _).
  apply tokenize_nonempty.
Qed.

(** X7: a match on a built tree starts inside the words, covers at least
    one word and no more words than remain, and carries a replacement:
    out of range, and in particular on an empty array, there is no
    match. *)
Theorem findLongestMatch_bounds calls ws i k v :
  findLongestMatch (build calls) ws i = Some (k, v) ->
  0 <= i /\ 1 <= k /\ i + k <= Z.of_nat (length ws) /\ is_Some v.
Proof.
  intros (Hi & key & r & -> & -> & Hne & _ & Hp%prefix_length)%
    findLongestMatch_Some_inv.
  rewrite length_drop in Hp. destruct key; [done|]. cbn [length] in *.
  split_and!; [done|lia|lia|by eexists].
Qed.

Lemma findLongestMatch_bounds_witness :
  0 <= 1 /\ 1 <= 2 /\ 1 + 2 <= Z.of_nat (length ["a"; "one"; "cat"]) /\
  is_Some (Some "un gato").
Proof.
  apply (findLongestMatch_bounds [("one cat", "un gato")]
           ["a"; "one"; "cat"] 1 2 (Some "un gato")).
  reflexivity.
Defined.

(** X8: more words after the query never lose a match nor shorten it. *)
Theorem findLongestMatch_more_words calls ws more i k v :
  findLongestMatch (build calls) ws i = Some (k, v) ->
  exists k' v',
    findLongestMatch (build calls) (ws ++ more) i = Some (k', v') /\ k <= k'.
Proof.
  intros (Hi & key & r & -> & -> & Hne & Hin & Hp)%findLongestMatch_Some_inv.
  destruct (build_root calls) as (Hwf & _ & _).
  pose proof (findLongestMatchRecursive_spec (build calls) (ws ++ more) i 0
                Hwf Hi) as Hspec.
  assert (Hp' : key `prefix_of` drop (Z.to_nat i) (ws ++ more)).
  { pose proof (prefix_length _ _ Hp) as Hlen. rewrite length_drop in Hlen.
    rewrite drop_app_le; [by apply prefix_app_r|].
    destruct key; [done | simpl in Hlen; lia]. }
  unfold findLongestMatch.
  destruct (findLongestMatchRecursive _ _ _ _) as [[k' v']|]; simpl in Hspec.
  - destruct Hspec as (key' & _ & _ & -> & Hmax).
    exists (0 + Z.of_nat (length key')), v'.
    split; [done|]. specialize (Hmax _ _ Hin Hp'). lia.
  - by destruct (Hspec _ _ Hin).
Qed.

Lemma findLongestMatch_more_words_witness :
  exists k' v',
    findLongestMatch
      (build [("one cat", "un gato"); ("one cat and two", "un gato y dos")])
      (["one"; "cat"; "and"] ++ ["two"]) 0 = Some (k', v') /\ 2 <= k'.
Proof.
  apply (findLongestMatch_more_words
           [("one cat", "un gato"); ("one cat and two", "un gato y dos")]
           ["one"; "cat"; "and"] ["two"] 0 2 (Some "un gato")).
  reflexivity.
Defined.

(** ** The start index *)

Lemma at_shift (ws : list string) (i : nat) j :
  0 <= j -> Js.at_ (drop i ws) j = Js.at_ ws (Z.of_nat i + j).
Proof.
  intros Hj. unfold Js.at_.
  destruct (Z.ltb_spec j 0), (Z.ltb_spec (Z.of_nat i + j) 0); try lia.
  rewrite lookup_drop. f_equal. lia.
Qed.

Lemma phraseMatches_shift label (ws : list string) (i : nat) :
  forall j, 0 <= j ->
    phraseMatches label (drop i ws) j = phraseMatches label ws (Z.of_nat i + j).
Proof.
  induction label as [|x label IH]; intros j Hj; simpl; [done|].
  rewrite at_shift by done. destruct (Js.at_ ws _); [|done].
  rewrite IH by lia. by rewrite Z.add_assoc.
Qed.

Lemma findInChildren_shift recurse1 recurse2 (ws : list string) (i : nat) j cs :
  0 <= j -> Z.of_nat i + j < Z.of_nat (length ws) ->
  Forall (fun kc => recurse1 kc.2 = recurse2 kc.2) cs ->
  forall best,
    findInChildren recurse1 (drop i ws) j cs best =
    findInChildren recurse2 ws (Z.of_nat i + j) cs best.
Proof.
  intros Hj Hlt. induction 1 as [|[k c] cs Hc _ IH]; intros best; [done|].
  cbn [findInChildren snd] in *.
  rewrite length_drop, phraseMatches_shift, Hc by done.
  replace (Z.of_nat (length ws - i)
           <? j + Z.of_nat (length (phrase c)))
    with (Z.of_nat (length ws)
          <? Z.of_nat i + j + Z.of_nat (length (phrase c))).
  2:{ destruct (Z.ltb_spec (Z.of_nat (length ws))
                  (Z.of_nat i + j + Z.of_nat (length (phrase c)))),
        (Z.ltb_spec (Z.of_nat (length ws - i))
                  (j + Z.of_nat (length (phrase c)))); lia. }
  by rewrite !IH.
Qed.

Lemma findLongestMatchRecursive_shift n :
  forall (ws : list string) (i : nat) j m,
    0 <= j ->
    findLongestMatchRecursive n (drop i ws) j m =
    findLongestMatchRecursive n ws (Z.of_nat i + j) m.
Proof.
  induction n as [ph rp e cs IH] using RadixNode_ind'.
  intros ws i j m Hj. rewrite !findLongestMatchRecursive_eq. cbv zeta.
  cbn [children isEndOfWord replacement]. rewrite length_drop.
  destruct (Z.leb_spec (Z.of_nat (length ws)) (Z.of_nat i + j)),
    (Z.leb_spec (Z.of_nat (length ws - i)) j); try lia; [done|].
  apply findInChildren_shift; [done|lia|].
  eapply Forall_impl; [done|]. intros [k c] IHc. cbn [snd] in *.
  rewrite IHc by lia. f_equal. lia.
Qed.

(** X9: a query from a start index is the query from index 0 on the words
    from that index on, on any tree: the words before the start index
    have no say and the match length is counted from the start index. *)
Theorem findLongestMatch_from_index (t : ReplacementRadixTree) ws i :
  0 <= i ->
  findLongestMatch t ws i = findLongestMatch t (drop (Z.to_nat i) ws) 0.
Proof.
  intros Hi. unfold findLongestMatch.
  rewrite findLongestMatchRecursive_shift by done. f_equal. lia.
Qed.

Lemma findLongestMatch_from_index_witness :
  findLongestMatch exampleTree ["see"; "one"; "cat"; "run"] 1 =
  findLongestMatch exampleTree (drop (Z.to_nat 1) ["see"; "one"; "cat"; "run"]) 0.
Proof.
  apply (findLongestMatch_from_index exampleTree
           ["see"; "one"; "cat"; "run"] 1).
  lia.
Defined.

(** ** [print] *)

Lemma printRecursive_eq n level :
  printRecursive n level =
  (indentation level +:+ "phrase: [" +:+ Js.join " " (phrase n) +:+ "]") ::
  (if isEndOfWord n
   then [indentation level +:+ "replacement: "
           +:+ showReplacement (replacement n)]
   else []) ++
  (children n ≫= fun kc => printRecursive kc.2 (S level)).
Proof.
  destruct n as [ph rp e cs]; cbn [printRecursive children]. do 2 f_equal.
  induction cs as [|[k c] cs IH]; [done|].
  rewrite IH. reflexivity.
Qed.

Lemma printRecursive_length n :
  forall level,
    length (printRecursive n level) =
    (length (nodes n) + length (entries n))%nat.
Proof.
  induction n as [ph rp e cs IH] using RadixNode_ind'. intros level.
  rewrite printRecursive_eq, nodes_eq, entries_mk.
  cbn [children isEndOfWord length]. rewrite !length_app.
  assert (Hcs : length (cs ≫= fun kc => printRecursive kc.2 (S level)) =
                (length (cs ≫= fun kc => nodes kc.2)
                 + length (entriesBelow cs))%nat).
  { induction IH as [|[k c] cs IHc _ IHcs]; [done|].
    rewrite !bind_cons, entriesBelow_cons, !length_app, IHcs. cbn [snd] in *.
    rewrite IHc. unfold endNodes. rewrite length_fmap. lia. }
  rewrite Hcs. destruct e; cbn [length]; lia.
Qed.

Lemma string_prefix_app (a b : string) : String.prefix a (a +:+ b) = true.
Proof.
  induction a as [|c a IH]; [by destruct b|].
  change ((if ascii_dec c c then String.prefix a (a +:+ b) else false) = true).
  destruct (ascii_dec c c); [apply IH|done].
Qed.

Lemma string_prefix_trans (a b c : string) :
  String.prefix a b = true -> String.prefix b c = true ->
  String.prefix a c = true.
Proof.
  revert b c; induction a as [|x a IH]; intros [|y b] [|z c]; simpl; try done.
  destruct (ascii_dec x y) as [->|]; [|done].
  destruct (ascii_dec y z) as [->|]; [|done]. apply IH.
Qed.

Lemma indentation_prefix level :
  String.prefix (indentation level) (indentation (S level)) = true.
Proof.
  induction level as [|level IH]; [done|].
  change (indentation (S (S level))) with ("  " +:+ indentation (S level)).
  change (indentation (S level)) with ("  " +:+ indentation level) at 1.
  change (String.prefix (indentation level) (indentation (S level)) = true).
  apply IH.
Qed.

Lemma printRecursive_indented n :
  forall level,
    Forall (fun line => String.prefix (indentation level) line = true)
           (printRecursive n level).
Proof.
  induction n as [ph rp e cs IH] using RadixNode_ind'. intros level.
  rewrite printRecursive_eq. cbn [phrase isEndOfWord replacement children].
  apply Forall_cons; split; [apply string_prefix_app|].
  apply Forall_app; split.
  - destruct e; [|constructor].
    apply Forall_cons; split; [apply string_prefix_app | constructor].
  - apply Forall_forall. intros line ([k c] & Hline & Hin)%list_elem_of_bind.
    rewrite Forall_forall in IH. specialize (IH _ Hin (S level)).
    rewrite Forall_forall in IH. cbn [snd] in *.
    eapply string_prefix_trans; [apply indentation_prefix | by apply IH].
Qed.

Lemma nodesAt_eq n level :
  nodesAt n level =
  (level, n) :: (children n ≫= fun kc => nodesAt kc.2 (S level)).
Proof.
  destruct n as [ph rp e cs]; cbn [nodesAt children]. f_equal.
  induction cs as [|[k c] cs IH]; [done|].
  rewrite IH. reflexivity.
Qed.

Lemma printRecursive_nodesAt n :
  forall level,
    printRecursive n level =
    nodesAt n level ≫= fun ln => nodeLines ln.1 ln.2.
Proof.
  induction n as [ph rp e cs IH] using RadixNode_ind'. intros level.
  rewrite printRecursive_eq, nodesAt_eq, bind_cons.
  cbn [fst snd children phrase isEndOfWord replacement].
  unfold nodeLines at 1. cbn [phrase isEndOfWord replacement app]. f_equal.
  f_equal. induction IH as [|[k c] cs IHc _ IHcs]; [done|].
  rewrite !bind_cons, bind_app. cbn [snd] in *. by rewrite IHc, IHcs.
Qed.

Lemma nodesAt_nodes n : forall level, (nodesAt n level).*2 = nodes n.
Proof.
  induction n as [ph rp e cs IH] using RadixNode_ind'. intros level.
  rewrite nodesAt_eq, nodes_eq, fmap_cons. cbn [snd children]. f_equal.
  induction IH as [|[k c] cs IHc _ IHcs]; [done|].
  rewrite !bind_cons, fmap_app. cbn [snd] in *. by rewrite IHc, IHcs.
Qed.

Lemma nodesAt_descend n :
  forall level level' n',
    (level', n') ∈ nodesAt n level ->
    exists path, descend n path = Some n' /\
                 level' = (level + length path)%nat.
Proof.
  induction n as [ph rp e cs IH] using RadixNode_ind'.
  intros level level' n'. rewrite nodesAt_eq. cbn [children].
  intros [[= -> ->]|Hin]%elem_of_cons.
  - exists []. split; [done | simpl; lia].
  - apply list_elem_of_bind in Hin as ([k c] & Hin & Hc). cbn [snd] in Hin.
    rewrite Forall_forall in IH.
    destruct (IH _ Hc _ _ _ Hin) as (path & Hpath & ->).
    apply list_elem_of_lookup in Hc as [i Hi].
    exists (i :: path). cbn [descend children length]. rewrite Hi.
    split; [done | lia].
Qed.

Lemma descend_nodesAt path :
  forall n level n',
    descend n path = Some n' ->
    ((level + length path)%nat, n') ∈ nodesAt n level.
Proof.
  induction path as [|i path IH]; intros n level n'; cbn [descend length].
  - intros [= ->]. rewrite Nat.add_0_r, nodesAt_eq. by left.
  - destruct (children n !! i) as [[k c]|] eqn:Hi; [|done]. intros Hd.
    rewrite nodesAt_eq. right. apply list_elem_of_bind. exists (k, c).
    split; [|by eapply list_elem_of_lookup_2].
    cbn [snd]. replace (level + S (length path))%nat
      with (S level + length path)%nat by lia. by apply IH.
Qed.

Lemma indentation_chars level :
  chars (indentation level) = replicate (2 * level) " "%char.
Proof.
  induction level as [|level IH]; [done|].
  change (indentation (S level))
    with (String " " (String " " (indentation level))).
  cbn [chars]. rewrite IH.
  replace (2 * S level)%nat with (S (S (2 * level))) by lia. done.
Qed.

(** X10: for any tree, [print] logs the nodes in pre-order, the root
    first: for every node its label line and, when it is the end of a
    phrase, its replacement line next, each behind [indentation] of the
    level of the node, which is two spaces for every step from the root
    down to the node.  So there is one line for every node and one more for
    every end-of-word node. *)
Theorem print_lines (t : ReplacementRadixTree) :
  print t = (nodesAt t 0 ≫= fun ln => nodeLines ln.1 ln.2) /\
  (nodesAt t 0).*2 = nodes t /\
  (forall level n,
     (level, n) ∈ nodesAt t 0 <->
     exists path, descend t path = Some n /\ level = length path) /\
  (forall level, chars (indentation level) = replicate (2 * level) " "%char) /\
  length (print t) = (length (nodes t) + length (endNodes t))%nat.
Proof.
  split_and!.
  - apply printRecursive_nodesAt.
  - apply nodesAt_nodes.
  - intros level n. split.
    + intros Hin. apply nodesAt_descend in Hin as (path & ? & ->). eauto.
    + intros (path & Hpath & ->). by apply (descend_nodesAt path t 0%nat).
  - apply indentation_chars.
  - unfold print, endNodes. by rewrite printRecursive_length, length_fmap.
Qed.

(** ** The words of a comment *)

Lemma splitWhiteSpaceFrom_pieces s :
  forall inRun,
    splitWhiteSpaceFrom s inRun <> [] /\
    Forall (fun w => hasNoWhiteSpace w = true) (splitWhiteSpaceFrom s inRun).
Proof.
  induction s as [|c s IH]; intros inRun; cbn [splitWhiteSpaceFrom].
  - split; [done | by repeat constructor].
  - destruct (Js.isWhiteSpace c) eqn:Hc.
    + destruct inRun; [apply IH|]. destruct (IH true) as [_ Hall].
      split; [done | by constructor].
    + destruct (IH false) as [Hne Hall].
      destruct (splitWhiteSpaceFrom s false) as [|w ws]; [done|].
      apply Forall_cons in Hall as [Hw Hws]. split; [done|].
      constructor; [|done]. simpl. by rewrite Hc.
Qed.

Lemma commentWords_blank_from s :
  forall inRun,
    filter (fun w => w <> EmptyString) (splitWhiteSpaceFrom s inRun) = [] <->
    isBlank s = true.
Proof.
  induction s as [|c s IH]; intros inRun; cbn [splitWhiteSpaceFrom isBlank].
  - by rewrite filter_cons_False by (by intros []).
  - destruct (Js.isWhiteSpace c) eqn:Hc; cbn [andb].
    + destruct inRun; [apply IH|].
      rewrite filter_cons_False by (by intros []). apply IH.
    + destruct (splitWhiteSpaceFrom_pieces s false) as [Hne _].
      destruct (splitWhiteSpaceFrom s false) as [|w ws]; [done|].
      by rewrite filter_cons_True by done.
Qed.

Lemma commentWords_isWord commentContent :
  Forall (fun w => isWord w = true) (commentWords commentContent).
Proof.
  unfold commentWords, splitWhiteSpace.
  destruct (splitWhiteSpaceFrom_pieces commentContent false) as [_ Hall].
  apply Forall_forall. intros w [Hw Hin]%list_elem_of_filter.
  rewrite Forall_forall in Hall. specialize (Hall _ Hin). by destruct w.
Qed.

(** X11: the words taken from a comment are never empty and hold no
    white space; there is none exactly when the comment is blank. *)
Theorem commentWords_words commentContent :
  Forall (fun w => isWord w = true) (commentWords commentContent) /\
  (commentWords commentContent = [] <-> isBlank commentContent = true).
Proof.
  split; [apply commentWords_isWord | apply commentWords_blank_from].
Qed.

Lemma splitWhiteSpaceFrom_word_space w s :
  hasNoWhiteSpace w = true ->
  splitWhiteSpaceFrom (w +:+ String " " s) false =
  w :: splitWhiteSpaceFrom s true.
Proof.
  induction w as [|c w IH]; [done|]. cbn [hasNoWhiteSpace].
  intros [Hc%negb_true_iff Hw]%andb_true_iff.
  change (String c w +:+ String " " s) with (String c (w +:+ String " " s)).
  cbn [splitWhiteSpaceFrom]. by rewrite Hc, IH.
Qed.

Lemma splitWhiteSpaceFrom_cons c s inRun :
  Js.isWhiteSpace c = false ->
  splitWhiteSpaceFrom (String c s) inRun =
  match splitWhiteSpaceFrom s false with
  | w :: ws => String c w :: ws
  | [] => [String c EmptyString]
  end.
Proof. intros Hc. cbn [splitWhiteSpaceFrom]. by rewrite Hc. Qed.

Lemma splitWhiteSpaceFrom_word w inRun :
  hasNoWhiteSpace w = true -> w <> EmptyString ->
  splitWhiteSpaceFrom w inRun = [w].
Proof.
  intros Hw Hne. destruct w as [|c w]; [done|]. clear Hne.
  revert c inRun Hw. induction w as [|c' w IH]; intros c inRun;
    cbn [hasNoWhiteSpace]; intros [Hc%negb_true_iff Hw]%andb_true_iff.
  - by rewrite splitWhiteSpaceFrom_cons.
  - by rewrite splitWhiteSpaceFrom_cons, (IH c' false Hw).
Qed.

Lemma splitWhiteSpaceFrom_start c s inRun :
  Js.isWhiteSpace c = false ->
  splitWhiteSpaceFrom (String c s) inRun = splitWhiteSpaceFrom (String c s) false.
Proof. intros Hc. cbn [splitWhiteSpaceFrom]. by rewrite Hc. Qed.

Lemma splitWhiteSpace_join_words words :
  words <> [] -> Forall (fun w => isWord w = true) words ->
  splitWhiteSpace (Js.join " " words) = words.
Proof.
  unfold splitWhiteSpace.
  induction words as [|w words IH]; [done|]. intros _ [Hw Hws]%Forall_cons.
  destruct words as [|w' words].
  - apply splitWhiteSpaceFrom_word; [by apply isWord_noWhiteSpace|].
    by destruct w.
  - rewrite join_cons_cons.
    change (w +:+ " " +:+ Js.join " " (w' :: words))
      with (w +:+ String " " (Js.join " " (w' :: words))).
    rewrite splitWhiteSpaceFrom_word_space by (by apply isWord_noWhiteSpace).
    f_equal.
    destruct (join_words_first (w' :: words) ltac:(done) Hws) as (c & s & E & Hc).
    rewrite E, splitWhiteSpaceFrom_start, <- E by done. by apply IH.
Qed.

(** X12: words joined by single spaces are taken apart again by the
    comment splitter. *)
Theorem commentWords_join words :
  Forall (fun w => isWord w = true) words ->
  commentWords (Js.join " " words) = words.
Proof.
  intros Hws. destruct words as [|w words]; [done|].
  unfold commentWords. rewrite splitWhiteSpace_join_words by done.
  induction Hws as [|x xs Hx _ IH]; [done|].
  rewrite filter_cons_True by (by destruct x). by rewrite IH.
Qed.

Lemma commentWords_join_witness :
  commentWords (Js.join " " ["Split"; "the"; "comment"]) =
  ["Split"; "the"; "comment"].
Proof.
  apply (commentWords_join ["Split"; "the"; "comment"]).
  by repeat constructor.
Defined.

(** ** From a sample to a cache hit *)

(** A sample is a run of words of the list, from the random index on,
    joined by single spaces. *)
Lemma getRandomWordsFromWords_slice words wordCount randomIndex s :
  0 <= randomIndex < Z.of_nat (length words) ->
  getRandomWordsFromWords words wordCount randomIndex = Some s ->
  exists n : nat,
    Z.of_nat n <= wordCount /\
    (n <= length words - Z.to_nat randomIndex)%nat /\
    s = Js.join " " (take n (drop (Z.to_nat randomIndex) words)).
Proof.
  intros Hi Hs. destruct (Z.lt_ge_cases wordCount 2) as [Hc|Hc].
  - unfold getRandomWordsFromWords in Hs.
    destruct (Z.ltb_spec wordCount 1); [done|].
    destruct (Z.eqb_spec wordCount 1); [|lia].
    exists 1%nat. split_and!; [lia..|].
    unfold Js.at_ in Hs. destruct (Z.ltb_spec randomIndex 0); [lia|].
    by rewrite (drop_S _ _ _ Hs).
  - rewrite getRandomWordsFromWords_count in Hs by done.
    injection Hs as <-. eexists. split_and!; [| |done]; lia.
Qed.

Lemma sample_words words wordCount randomIndex s :
  Forall (fun w => isWord w = true) words ->
  0 <= randomIndex < Z.of_nat (length words) ->
  getRandomWordsFromWords words wordCount randomIndex = Some s ->
  s <> EmptyString ->
  exists slice,
    slice <> [] /\ Forall (fun w => isWord w = true) slice /\
    s = Js.join " " slice /\ Z.of_nat (length slice) <= wordCount /\
    slice `prefix_of` drop (Z.to_nat randomIndex) words.
Proof.
  intros Hws Hi Hs Hne.
  destruct (getRandomWordsFromWords_slice _ _ _ _ Hi Hs) as (n & Hn & Hlen & ->).
  exists (take n (drop (Z.to_nat randomIndex) words)). split_and!.
  - by intros E; rewrite E in Hne.
  - by apply Forall_take, Forall_drop.
  - done.
  - rewrite length_take. lia.
  - apply prefix_take.
Qed.

(** X13: a sample that is not empty, drawn from words without white
    space, has the same words for [insert] (after [trim]) and for the query
    ([split] alone): between one and [wordCount] consecutive words of the
    list, from the random index on. *)
Theorem sample_tokens words wordCount randomIndex s :
  Forall (fun w => isWord w = true) words ->
  0 <= randomIndex < Z.of_nat (length words) ->
  getRandomWordsFromWords words wordCount randomIndex = Some s ->
  s <> EmptyString ->
  tokenize s = sampleWords s /\
  1 <= Z.of_nat (length (sampleWords s)) <= wordCount /\
  sampleWords s `prefix_of` drop (Z.to_nat randomIndex) words.
Proof.
  intros Hws Hi Hs Hne.
  destruct (sample_words _ _ _ _ Hws Hi Hs Hne)
    as (slice & Hslice & Hwords & -> & Hlen & Hp).
  unfold sampleWords.
  rewrite tokenize_sample, split_join_words by done.
  split_and!; [done| |done|done]. destruct slice; [done | simpl; lia].
Qed.

Lemma sample_tokens_witness :
  tokenize "the comment" = sampleWords "the comment" /\
  1 <= Z.of_nat (length (sampleWords "the comment")) <= 2 /\
  sampleWords "the comment" `prefix_of`
    drop (Z.to_nat 1) ["Split"; "the"; "comment"; "content"].
Proof.
  apply (sample_tokens ["Split"; "the"; "comment"; "content"] 2 1
           "the comment");
    [by repeat constructor | simpl; lia | reflexivity | discriminate].
Defined.

Lemma applied_sample_found calls cycle commentContent wordCount
    randomIndex s range' translation :
  tree cycle = build calls ->
  0 <= randomIndex < Z.of_nat (length (commentWords commentContent)) ->
  getRandomWordsFromWords (commentWords commentContent) wordCount randomIndex
    = Some s ->
  s <> EmptyString ->
  findLongestMatch
    (tree (applyTranslation cycle (mkSample s range') translation))
    (sampleWords s) 0 =
  Some (Z.of_nat (length (sampleWords s)), Some translation).
Proof.
  intros Htree Hi Hs Hne.
  destruct (sample_words _ _ _ _ (commentWords_isWord commentContent) Hi Hs Hne)
    as (slice & Hslice & Hwords & -> & _ & _).
  cbn [applyTranslation tree randomWord]. rewrite Htree, <- build_snoc.
  unfold sampleWords. rewrite split_join_words by done.
  apply findLongestMatch_exact. eexists calls, _, [].
  split_and!; [done | by apply tokenize_sample | constructor].
Qed.

(** X14: once the translation of a sample drawn from a comment is applied,
    the sample is found in the tree, in full and with that translation,
    and stands in the dictionary. *)
Theorem translated_sample_is_hit calls cycle commentContent wordCount
    randomIndex s range' translation :
  tree cycle = build calls ->
  0 <= randomIndex < Z.of_nat (length (commentWords commentContent)) ->
  getRandomWordsFromWords (commentWords commentContent) wordCount randomIndex
    = Some s ->
  s <> EmptyString ->
  let cycle' := applyTranslation cycle (mkSample s range') translation in
  findLongestMatch (tree cycle') (sampleWords s) 0 =
    Some (Z.of_nat (length (sampleWords s)), Some translation) /\
  globalState cycle' !! s = Some translation.
Proof.
  intros Htree Hi Hs Hne cycle'.
  split; [by eapply applied_sample_found | apply lookup_insert_eq].
Qed.

Lemma translated_sample_is_hit_witness :
  findLongestMatch
    (tree (applyTranslation (mkCycle (build [("one", "uno")]) ∅ [])
             (mkSample "the comment" (10, 21)) "el comentario"))
    (sampleWords "the comment") 0 =
    Some (Z.of_nat (length (sampleWords "the comment")), Some "el comentario")
  /\
  globalState (applyTranslation (mkCycle (build [("one", "uno")]) ∅ [])
                 (mkSample "the comment" (10, 21)) "el comentario")
    !! "the comment" = Some "el comentario".
Proof.
  apply (translated_sample_is_hit [("one", "uno")]
           (mkCycle (build [("one", "uno")]) ∅ [])
           "  Split the   comment content " 2 1 "the comment" (10, 21)
           "el comentario");
    [reflexivity | vm_compute; split; [discriminate | reflexivity]
    | reflexivity | discriminate].
Defined.

(** X15: on a cache hit the sample is not queued and its decoration is
    built from [translation[0]], the number of words matched: for a sample
    whose translation was applied before, the text shown is that number,
    whatever the translation. *)
Theorem classifySample_hit calls cycle commentContent wordCount randomIndex
    s range' range'' translation wordsToTranslate :
  tree cycle = build calls ->
  0 <= randomIndex < Z.of_nat (length (commentWords commentContent)) ->
  getRandomWordsFromWords (commentWords commentContent) wordCount randomIndex
    = Some s ->
  s <> EmptyString ->
  let cycle' := applyTranslation cycle (mkSample s range') translation in
  classifySample cycle' wordsToTranslate s range'' =
  (mkCycle (tree cycle') (globalState cycle')
     (decorations cycle' ++
      [mkDecoration s
         ("] " +:+ showNumber (Z.of_nat (length (sampleWords s)))) range'']),
   wordsToTranslate).
Proof.
  intros Htree Hi Hs Hne cycle'. unfold classifySample.
  pose proof (applied_sample_found calls cycle commentContent wordCount
                randomIndex s range' translation Htree Hi Hs Hne) as Hhit.
  fold cycle' in Hhit. by rewrite Hhit.
Qed.

Lemma classifySample_hit_witness :
  classifySample
    (applyTranslation (mkCycle (build [("one", "uno")]) ∅ [])
       (mkSample "the comment" (10, 21)) "el comentario")
    [] "the comment" (40, 51) =
  (mkCycle
     (tree (applyTranslation (mkCycle (build [("one", "uno")]) ∅ [])
              (mkSample "the comment" (10, 21)) "el comentario"))
     (globalState (applyTranslation (mkCycle (build [("one", "uno")]) ∅ [])
                     (mkSample "the comment" (10, 21)) "el comentario"))
     (decorations (applyTranslation (mkCycle (build [("one", "uno")]) ∅ [])
                     (mkSample "the comment" (10, 21)) "el comentario") ++
      [mkDecoration "the comment"
         ("] " +:+ showNumber (Z.of_nat (length (sampleWords "the comment"))))
         (40, 51)]),
   []).
Proof.
  apply (classifySample_hit [("one", "uno")]
           (mkCycle (build [("one", "uno")]) ∅ [])
           "  Split the   comment content " 2 1 "the comment" (10, 21)
           (40, 51) "el comentario" []);
    [reflexivity | vm_compute; split; [discriminate | reflexivity]
    | reflexivity | discriminate].
Defined.

(** ** What a batch leaves alone *)

Lemma mergeAll_lookup_other saved pairs p :
  p ∉ pairs.*1 -> mergeAll saved pairs !! p = saved !! p.
Proof.
  induction pairs as [|[q r] pairs IH] using rev_ind; [done|].
  rewrite fmap_app, not_elem_of_app, mergeAll_snoc. cbn.
  rewrite list_elem_of_singleton. intros [Hp Hq].
  rewrite lookup_insert_ne by done. by apply IH.
Qed.

Lemma mergeAll_lookup_is_Some saved pairs p :
  is_Some (saved !! p) -> is_Some (mergeAll saved pairs !! p).
Proof.
  intros Hp. induction pairs as [|[q r] pairs IH] using rev_ind; [done|].
  rewrite mergeAll_snoc. destruct (decide (q = p)) as [->|].
  - rewrite lookup_insert_eq. by eexists.
  - by rewrite lookup_insert_ne.
Qed.

Lemma translateBatch_globalState cycle samples translated :
  exists pairs,
    pairs.*1 ⊆ randomWord <$> samples /\
    globalState (translateBatch cycle samples translated) =
    mergeAll (globalState cycle) pairs.
Proof.
  assert (Hnone : exists pairs : list (string * string),
            pairs.*1 ⊆ randomWord <$> samples /\
            globalState cycle = mergeAll (globalState cycle) pairs).
  { exists []. split; [set_solver | done]. }
  unfold translateBatch. destruct (0 <? length samples)%nat; [|done].
  destruct translated as [[|c text]|]; [done| |done].
  destruct (length _ =? 0)%nat; [done|].
  destruct (forEachTranslation_zip samples (parseTranslated (String c text))
              0 cycle) as [_ Hdict].
  rewrite drop_0 in Hdict. eexists. split; [|exact Hdict].
  intros p ([q t] & -> & Hin)%list_elem_of_fmap. cbn [fst].
  apply elem_of_zip_l in Hin. done.
Qed.

(** X16: whatever the translator returns, a batch changes in the
    dictionary only the entries of the phrases it sent, and removes
    none. *)
Theorem translateBatch_dictionary_additive cycle samples translated p :
  (p ∉ randomWord <$> samples ->
   globalState (translateBatch cycle samples translated) !! p =
   globalState cycle !! p) /\
  (is_Some (globalState cycle !! p) ->
   is_Some (globalState (translateBatch cycle samples translated) !! p)).
Proof.
  destruct (translateBatch_globalState cycle samples translated)
    as (pairs & Hsub & ->).
  split.
  - intros Hp. apply mergeAll_lookup_other. set_solver.
  - apply mergeAll_lookup_is_Some.
Qed.

Lemma forEachTranslation_decorations samples translatedWords index cycle :
  decorations (forEachTranslation samples translatedWords index cycle) =
  decorations cycle ++
  ((fun st : Sample * string =>
      mkDecoration (randomWord st.1) ("] " +:+ st.2) (range st.1)) <$>
   zip (drop index samples) translatedWords).
Proof.
  revert index cycle.
  induction translatedWords as [|translation rest IH]; intros index cycle.
  - cbn. by rewrite zip_with_nil_r, app_nil_r.
  - cbn [forEachTranslation]. destruct (samples !! index) as [sample|] eqn:Hs.
    + rewrite (drop_S _ _ _ Hs), IH. cbn. by rewrite <- app_assoc.
    + pose proof (IH (S index) cycle) as IH'.
      apply lookup_ge_None in Hs.
      rewrite !drop_ge in * by lia. done.
Qed.

(** X17: the decorations of a batch come after those collected before,
    one for each pair of a sample and the translation at its position:
    it shows this translation at the range of this sample. *)
Theorem translateBatch_decorations cycle samples translated :
  translated <> EmptyString ->
  decorations (translateBatch cycle samples (Some translated)) =
  decorations cycle ++
  ((fun st : Sample * string =>
      mkDecoration (randomWord st.1) ("] " +:+ st.2) (range st.1)) <$>
   zip samples (parseTranslated translated)).
Proof.
  intros Ht. unfold translateBatch.
  destruct samples as [|sample samples]; [by rewrite app_nil_r|].
  cbn [length Nat.ltb Nat.leb]. destruct translated as [|c text]; [done|].
  pose proof (parseTranslated_nonempty (String c text)) as Hne.
  destruct (Nat.eqb_spec (length (parseTranslated (String c text))) 0) as [E|_].
  { by destruct (parseTranslated (String c text)). }
  by rewrite forEachTranslation_decorations, drop_0.
Qed.

Lemma translateBatch_decorations_witness :
  decorations
    (translateBatch (mkCycle newTree ∅ [])
       [mkSample "one cat" (3, 10); mkSample "two" (20, 23)]
       (Some "un gato, dos")) =
  decorations (mkCycle newTree ∅ []) ++
  ((fun st : Sample * string =>
      mkDecoration (randomWord st.1) ("] " +:+ st.2) (range st.1)) <$>
   zip [mkSample "one cat" (3, 10); mkSample "two" (20, 23)]
       (parseTranslated "un gato, dos")).
Proof.
  apply (translateBatch_decorations (mkCycle newTree ∅ [])
           [mkSample "one cat" (3, 10); mkSample "two" (20, 23)]
           "un gato, dos").
  discriminate.
Defined.

(** ** The parsed response *)

Lemma chars_trimStart s x : x ∈ chars (Js.trimStart s) -> x ∈ chars s.
Proof.
  induction s as [|c s IH]; cbn [Js.trimStart chars]; [done|].
  destruct (Js.isWhiteSpace c); [|done]. intros ?%IH. by right.
Qed.

Lemma chars_trimEnd s x : x ∈ chars (Js.trimEnd s) -> x ∈ chars s.
Proof.
  induction s as [|c s IH]; cbn [Js.trimEnd chars]; [done|].
  destruct (Js.trimEnd s) as [|c' t] eqn:E.
  - destruct (Js.isWhiteSpace c); cbn [chars];
      [by intros ?%elem_of_nil|].
    rewrite list_elem_of_singleton. intros ->. by left.
  - cbn [chars]. rewrite !elem_of_cons. intros [->|Hx]; [by left|].
    right. apply IH. cbn [chars]. by rewrite elem_of_cons.
Qed.

Lemma chars_trim s x : x ∈ chars (Js.trim s) -> x ∈ chars s.
Proof. by intros ?%chars_trimEnd%chars_trimStart. Qed.

Lemma chars_split sep s w x :
  w ∈ Js.split sep s -> x ∈ chars w -> x ∈ chars s /\ x <> sep.
Proof.
  revert w; induction s as [|c s IH]; intros w; cbn [Js.split chars].
  - by intros ->%list_elem_of_singleton ?%elem_of_nil.
  - destruct (Ascii.eqb_spec c sep) as [->|Hc].
    + intros [->|Hw]%elem_of_cons Hx; [by apply elem_of_nil in Hx|].
      destruct (IH _ Hw Hx). split; [by right | done].
    + pose proof (split_nonempty sep s) as Hne.
      destruct (Js.split sep s) as [|w0 ws]; [done|].
      intros [->|Hw]%elem_of_cons Hx.
      * cbn [chars] in Hx. apply elem_of_cons in Hx as [->|Hx];
          [split; [by left | done]|].
        destruct (IH w0 ltac:(by left) Hx). split; [by right | done].
      * destruct (IH w ltac:(by right) Hx). split; [by right | done].
Qed.

Lemma chars_removeAll c s x :
  x ∈ chars (Js.removeAll c s) -> x ∈ chars s /\ x <> c.
Proof.
  induction s as [|c' s IH]; cbn [Js.removeAll chars];
    [by intros ?%elem_of_nil|].
  destruct (Ascii.eqb_spec c' c) as [->|Hc].
  - intros [? ?]%IH. split; [by right | done].
  - cbn [chars]. intros [->|[? ?]%IH]%elem_of_cons;
      (split; [by constructor | done]).
Qed.

Lemma trimStart_idem s : Js.trimStart (Js.trimStart s) = Js.trimStart s.
Proof.
  induction s as [|c s IH]; [done|]. cbn [Js.trimStart].
  destruct (Js.isWhiteSpace c) eqn:Hc; [done|].
  cbn [Js.trimStart]. by rewrite Hc.
Qed.

Lemma trimEnd_idem s : Js.trimEnd (Js.trimEnd s) = Js.trimEnd s.
Proof.
  induction s as [|c s IH]; [done|]. cbn [Js.trimEnd].
  destruct (Js.trimEnd s) as [|c' t] eqn:E.
  - destruct (Js.isWhiteSpace c) eqn:Hc; [done|].
    cbn [Js.trimEnd]. by rewrite Hc.
  - change (Js.trimEnd (String c (String c' t)))
      with (match Js.trimEnd (String c' t) with
            | EmptyString =>
                if Js.isWhiteSpace c then EmptyString else String c EmptyString
            | u => String c u
            end).
    by rewrite IH.
Qed.

Lemma trimStart_trimEnd s :
  Js.trimStart (Js.trimEnd (Js.trimStart s)) = Js.trimEnd (Js.trimStart s).
Proof.
  induction s as [|c s IH]; [done|]. cbn [Js.trimStart].
  destruct (Js.isWhiteSpace c) eqn:Hc; [done|].
  cbn [Js.trimEnd]. destruct (Js.trimEnd s); rewrite ?Hc; cbn [Js.trimStart];
    by rewrite Hc.
Qed.

Lemma trim_idem s : Js.trim (Js.trim s) = Js.trim s.
Proof. unfold Js.trim. by rewrite trimStart_trimEnd, trimEnd_idem. Qed.

Lemma split_length sep s :
  length (Js.split sep s) = S (length (filter (fun c => c = sep) (chars s))).
Proof.
  induction s as [|c s IH]; [done|]. cbn [Js.split chars].
  destruct (Ascii.eqb_spec c sep) as [->|Hc].
  - rewrite filter_cons_True by done. cbn [length]. by rewrite IH.
  - rewrite filter_cons_False by done. rewrite <- IH.
    pose proof (split_nonempty sep s). by destruct (Js.split sep s).
Qed.

Lemma removeAll_count c sep s :
  sep <> c ->
  filter (fun x => x = sep) (chars (Js.removeAll c s)) =
  filter (fun x => x = sep) (chars s).
Proof.
  intros Hne. induction s as [|c' s IH]; [done|]. cbn [Js.removeAll chars].
  destruct (Ascii.eqb_spec c' c) as [->|Hc].
  - by rewrite filter_cons_False by congruence.
  - cbn [chars]. destruct (decide (c' = sep)) as [->|].
    + by rewrite !filter_cons_True, IH by done.
    + by rewrite !filter_cons_False, IH by done.
Qed.

(** X18: the parsed response has one translation more than the response
    has commas; every translation is trimmed and holds neither a comma
    nor an apostrophe. *)
Theorem parseTranslated_words translated :
  length (parseTranslated translated) =
    S (length (filter (fun c => c = ","%char) (chars translated))) /\
  Forall (fun w => Js.trim w = w /\
                   (","%char ∉ chars w) /\ ("'"%char ∉ chars w))
         (parseTranslated translated).
Proof.
  unfold parseTranslated. split.
  - rewrite length_fmap, split_length, removeAll_count; [done|].
    by vm_compute.
  - apply Forall_fmap, Forall_forall. intros w Hw. cbn.
    split_and!; [apply trim_idem| |].
    + intros Hx%chars_trim. by destruct (chars_split _ _ _ _ Hw Hx).
    + intros Hx%chars_trim. destruct (chars_split _ _ _ _ Hw Hx) as [Hin _].
      by apply chars_removeAll in Hin as [_ ?].
Qed.

(** ** Hydration *)

(** X19: after hydration from a dictionary whose phrases differ in
    their tokens, in any order of its entries, every saved phrase is found
    in full, with its saved replacement. *)
Theorem hydrate_finds_saved (saved : gmap string string) savedEntries p r :
  (forall p1 p2, is_Some (saved !! p1) -> is_Some (saved !! p2) ->
                 tokenize p1 = tokenize p2 -> p1 = p2) ->
  savedEntries ≡ₚ map_to_list saved ->
  saved !! p = Some r ->
  findLongestMatch (hydrate savedEntries) (tokenize p) 0 =
  Some (Z.of_nat (length (tokenize p)), Some r).
Proof.
  intros Hinj Hperm Hp.
  assert (Hin : forall q t, (q, t) ∈ savedEntries <-> saved !! q = Some t).
  { intros q t. by rewrite Hperm, elem_of_map_to_list. }
  apply (findLongestMatch_exact savedEntries), latest_mostRecent, latest_NoDup.
  - rewrite Hperm. apply NoDup_fst_map_to_list.
  - intros p1 p2 ([q1 t1] & -> & H1%Hin)%list_elem_of_fmap
      ([q2 t2] & -> & H2%Hin)%list_elem_of_fmap.
    apply Hinj; by eexists.
  - exists p. split; [done | by apply Hin].
Qed.

Lemma hydrate_finds_saved_witness :
  findLongestMatch (hydrate [("one cat", "un gato"); ("big", "grande")])
                   (tokenize "big") 0 =
  Some (Z.of_nat (length (tokenize "big")), Some "grande").
Proof.
  apply (hydrate_finds_saved
           (<["big" := "grande"]> (<["one cat" := "un gato"]> ∅))
           [("one cat", "un gato"); ("big", "grande")] "big" "grande").
  - intros p1 p2 [r1 H1] [r2 H2].
    apply elem_of_map_to_list in H1, H2. revert H1 H2.
    vm_compute map_to_list. set_unfold.
    intros [[= -> _]|[[= -> _]|[]]] [[= -> _]|[[= -> _]|[]]];
      vm_compute; done.
  - vm_compute map_to_list. reflexivity.
  - reflexivity.
Defined.

(** ** The listener for opened documents *)

Lemma openEvents_spec events :
  forall processed,
    NoDup (openEvents processed events).2 /\
    (forall uri, uri ∈ (openEvents processed events).2 ->
                 (uri ∉ processed) /\ Some uri ∈ events) /\
    (openEvents processed events).1 =
      processed ∪ list_to_set (openEvents processed events).2 /\
    (forall uri, Some uri ∈ events -> uri ∈ (openEvents processed events).1).
Proof.
  induction events as [|event events IH]; intros processed.
  - cbn. split_and!; [constructor|set_solver..].
  - cbn [openEvents]. unfold onDidOpenTextDocument.
    destruct event as [uri|].
    + destruct (decide (uri ∈ processed)) as [Hin|Hnew].
      * destruct (IH processed) as (Hnd & Hfresh & Hfinal & Hall).
        destruct (openEvents processed events) as [final rest].
        cbn [fst snd] in *. split_and!; [done| |done|].
        -- intros u Hu. destruct (Hfresh _ Hu). split; [done | by right].
        -- intros u [[= ->]|Hu]%elem_of_cons; [|by apply Hall].
           rewrite Hfinal. set_solver.
      * destruct (IH ({[uri]} ∪ processed)) as (Hnd & Hfresh & Hfinal & Hall).
        destruct (openEvents ({[uri]} ∪ processed) events) as [final rest].
        cbn [fst snd] in *. split_and!.
        -- apply NoDup_cons. split; [|done].
           intros Hu. destruct (Hfresh _ Hu). set_solver.
        -- intros u [->|Hu]%elem_of_cons; [split; [done | by left]|].
           destruct (Hfresh _ Hu). split; [set_solver | by right].
        -- rewrite Hfinal. set_solver.
        -- intros u [[= ->]|Hu]%elem_of_cons; [|by apply Hall].
           rewrite Hfinal. set_solver.
    + destruct (IH processed) as (Hnd & Hfresh & Hfinal & Hall).
      destruct (openEvents processed events) as [final rest].
      cbn [fst snd] in *. split_and!; [done| |done|].
      * intros u Hu. destruct (Hfresh _ Hu). split; [done | by right].
      * intros u [[=]|Hu]%elem_of_cons. by apply Hall.
Qed.

(** X20: over any sequence of open events, starting with no processed
    document, every document that was the active one at an event is handed
    to the handler, once, and nothing else is. *)
Theorem openEvents_once events :
  NoDup (openEvents ∅ events).2 /\
  forall uri, uri ∈ (openEvents ∅ events).2 <-> Some uri ∈ events.
Proof.
  destruct (openEvents_spec events ∅) as (Hnd & Hfresh & Hfinal & Hall).
  split; [done|]. intros uri. split; [by intros [_ ?]%Hfresh|].
  intros Hin%Hall. rewrite Hfinal in Hin. set_solver.
Qed.

(** ** Block comments *)

Lemma chars_app a b x : x ∈ chars (a +:+ b) <-> x ∈ chars a \/ x ∈ chars b.
Proof.
  induction a as [|c a IH].
  - cbn. rewrite elem_of_nil. naive_solver.
  - change (String c a +:+ b) with (String c (a +:+ b)). cbn [chars].
    rewrite !elem_of_cons, IH. naive_solver.
Qed.

Lemma chars_join sep ws x :
  x ∈ chars (Js.join sep ws) ->
  x ∈ chars sep \/ exists w, w ∈ ws /\ x ∈ chars w.
Proof.
  induction ws as [|w ws IH]; [by intros ?%elem_of_nil|].
  destruct ws as [|w' ws].
  - intros Hx. right. exists w. split; [by left | done].
  - rewrite join_cons_cons, !chars_app. intros [Hx|[Hx|Hx]].
    + right. exists w. split; [by left | done].
    + by left.
    + destruct (IH Hx) as [?|(w0 & Hw0 & ?)]; [by left|].
      right. exists w0. split; [by right | done].
Qed.

Lemma chars_stripLeadingStar line x :
  x ∈ chars (stripLeadingStar line) -> x ∈ chars line.
Proof.
  unfold stripLeadingStar.
  destruct (Js.trimStart line) as [|c rest] eqn:E; [done|].
  assert (Hrest : x ∈ chars rest -> x ∈ chars line).
  { intros Hx. apply chars_trimStart. rewrite E. by right. }
  destruct c as [[] [] [] [] [] [] [] []]; done.
Qed.

(** X21: a cleaned block comment is one line: it holds no line feed, and
    every character of it is a space or a character of the comment. *)
Theorem cleanMultiLineComment_chars multiLineComment x :
  x ∈ chars (cleanMultiLineComment multiLineComment) ->
  x <> "010"%char /\
  (x = " "%char \/ x ∈ chars multiLineComment).
Proof.
  unfold cleanMultiLineComment.
  intros [Hx|(w & Hw & Hx)]%chars_join.
  - cbn in Hx. apply list_elem_of_singleton in Hx as ->.
    split; [by vm_compute | by left].
  - apply list_elem_of_fmap in Hw as (line & -> & Hline).
    apply chars_trim, chars_stripLeadingStar in Hx.
    destruct (chars_split _ _ _ _ Hline Hx). split; [done | by right].
Qed.

Lemma cleanMultiLineComment_chars_witness :
  "c"%char <> "010"%char /\
  ("c"%char = " "%char \/
   "c"%char ∈ chars ("* one" +:+ String "010" " * cat")).
Proof.
  apply (cleanMultiLineComment_chars ("* one" +:+ String "010" " * cat")).
  vm_compute. do 4 right. left.
Defined.

(** ** Growth of the tree *)

Lemma nodes_mk_length ph rp e cs :
  length (nodes (mkNode ph rp e cs)) =
  S (length (cs ≫= fun kc => nodes kc.2)).
Proof. by rewrite nodes_eq. Qed.

Lemma nodes_replace_length (pre : list (string * RadixNode)) key
    (c c' : RadixNode) post :
  (length ((pre ++ (key, c') :: post) ≫= fun kc => nodes kc.2)
   + length (nodes c)
   = length ((pre ++ (key, c) :: post) ≫= fun kc => nodes kc.2)
     + length (nodes c'))%nat.
Proof. rewrite !bind_app, !bind_cons, !length_app. cbn [snd]. lia. Qed.

Lemma splitShorter_nodes c rem k r :
  drop k (phrase c) <> [] ->
  length (nodes (splitShorter c rem k r)) = S (length (nodes c)).
Proof.
  intros Hne. unfold splitShorter. cbn [phrase].
  destruct (drop k (phrase c)) as [|key suffix]; [done|].
  cbn [Js.mapSet]. rewrite nodes_mk_length, bind_cons. cbn [snd mbind list_bind].
  rewrite app_nil_r, nodes_mk_length. by rewrite (nodes_eq c).
Qed.

Lemma splitBoth_nodes c rem k r :
  head (drop k (phrase c)) <> head (drop k rem) ->
  drop k (phrase c) <> [] -> drop k rem <> [] ->
  length (nodes (splitBoth c rem k r)) = S (S (length (nodes c))).
Proof.
  intros Hhd Hne1 Hne2. unfold splitBoth. cbn [phrase].
  destruct (drop k (phrase c)) as [|key1 suffix1]; [done|].
  destruct (drop k rem) as [|key2 suffix2]; [done|].
  cbn [Js.mapSet]. destruct (String.eqb_spec key1 key2) as [->|_]; [done|].
  rewrite nodes_mk_length, !bind_cons. cbn [snd mbind list_bind].
  rewrite app_nil_r, length_app, nodes_mk_length. rewrite (nodes_eq c).
  rewrite nodes_mk_length. cbn [length mbind list_bind]. lia.
Qed.

Lemma insertRecursive_nodes n :
  forall words index r,
    wf n ->
    (length (nodes n) <= length (nodes (insertRecursive n words index r))
     <= length (nodes n) + 2)%nat.
Proof.
  induction n as [ph rp e cs IH] using RadixNode_ind'.
  intros words index r Hwf.
  pose proof Hwf as (_ & Hnd & Hcs)%wf_inv. cbn [children] in Hnd, Hcs.
  rewrite insertRecursive_eq. cbn [phrase replacement isEndOfWord children].
  destruct (drop index words) as [|w rem'] eqn:Hrem.
  { rewrite !nodes_mk_length. lia. }
  rewrite <- Hrem.
  destruct (insertIntoChildren _ _ _ cs) as [cs'|] eqn:Hloop.
  - apply insertIntoChildren_Some in Hloop
      as (pre & key & child & post & -> & Hpre & Hpos & ->).
    apply Forall_app in Hcs as [_ Hcs].
    apply Forall_cons in Hcs as [[_ Hwfc] _]. cbn [snd] in Hwfc.
    apply Forall_app in IH as [_ IH]. apply Forall_cons in IH as [IHc _].
    cbn [snd] in IHc. rewrite !nodes_mk_length. cbv zeta.
    set (k := findCommonPrefix (phrase child) (drop index words)) in *.
    pose proof (findCommonPrefix_le_l (phrase child) (drop index words)) as Hle1.
    pose proof (findCommonPrefix_le_r (phrase child) (drop index words)) as Hle2.
    fold k in Hle1, Hle2.
    assert (Hd : forall l : list string, (k < length l)%nat -> drop k l <> []).
    { intros l Hl E%(f_equal length). rewrite length_drop in E. simpl in E. lia. }
    match goal with
    | |- context [(key, ?c')] =>
        pose proof (nodes_replace_length pre key child c' post) as Hlen;
        assert (length (nodes child) <= length (nodes c')
                <= length (nodes child) + 2)%nat as Hc'; [|lia]
    end.
    destruct (Nat.eqb_spec k (length (phrase child))) as [Hfull|Hnfull];
      [by apply IHc|].
    destruct (Nat.eqb_spec k (length (drop index words))) as [Hshort|Hnshort].
    + rewrite splitShorter_nodes; [lia | apply Hd; lia].
    + rewrite splitBoth_nodes; [lia| |apply Hd; lia|apply Hd; lia].
      apply findCommonPrefix_stop; fold k; lia.
  - apply insertIntoChildren_None in Hloop.
    assert (Hw : w ∉ cs.*1).
    { intros ([k c] & -> & Hin)%list_elem_of_fmap. cbn [fst] in *.
      rewrite Forall_forall in Hloop, Hcs.
      specialize (Hloop _ Hin). destruct (Hcs _ Hin) as [Hk _].
      cbn [fst snd] in *.
      assert (0 < findCommonPrefix (phrase c) (drop index words))%nat; [|lia].
      apply findCommonPrefix_pos. exists k. by rewrite Hrem. }
    rewrite mapSet_fresh by done.
    rewrite !nodes_mk_length, bind_app, length_app. cbn. lia.
Qed.

(** X22: an insertion never takes a node away and adds two nodes at
    most. *)
Theorem insert_nodes_growth calls p r :
  (length (nodes (build calls)) <= length (nodes (insert (build calls) p r))
   <= length (nodes (build calls)) + 2)%nat.
Proof.
  destruct (build_root calls) as (Hwf & _ & _).
  by apply insertRecursive_nodes.
Qed.

(** X23: an insertion never makes a query lose its match nor shortens
    it. *)
Theorem insert_keeps_matches calls p r ws i k v :
  findLongestMatch (build calls) ws i = Some (k, v) ->
  exists k' v',
    findLongestMatch (insert (build calls) p r) ws i = Some (k', v') /\
    k <= k'.
Proof.
  intros (Hi & key & r0 & -> & -> & Hne & Hin & Hp)%findLongestMatch_Some_inv.
  rewrite <- build_snoc.
  destruct (build_root (calls ++ [(p, r)])) as (Hwf & _ & _).
  pose proof (findLongestMatchRecursive_spec _ ws i 0 Hwf Hi) as Hspec.
  assert (Hin' : exists v', (key, v') ∈ entries (build (calls ++ [(p, r)]))).
  { apply build_entries in Hin as (r1 & _ & Hr1).
    destruct (decide (tokenize p = key)) as [Hk|Hk].
    - exists (Some r). apply build_entries. exists r. split; [done|].
      rewrite latest_snoc. cbn [fst snd]. by rewrite decide_True.
    - exists (Some r1). apply build_entries. exists r1. split; [done|].
      rewrite latest_snoc. cbn [fst snd]. by rewrite decide_False. }
  destruct Hin' as [v' Hin']. unfold findLongestMatch.
  destruct (findLongestMatchRecursive _ _ _ _) as [[k' v'']|]; simpl in Hspec.
  - destruct Hspec as (key' & _ & _ & -> & Hmax).
    exists (0 + Z.of_nat (length key')), v''.
    split; [done|]. specialize (Hmax _ _ Hin' Hp). lia.
  - by destruct (Hspec _ _ Hin').
Qed.

Lemma insert_keeps_matches_witness :
  exists k' v',
    findLongestMatch
      (insert (build [("one cat", "un gato")]) "one cat and two"
              "un gato y dos")
      ["one"; "cat"; "and"; "two"] 0 = Some (k', v') /\
    2 <= k'.
Proof.
  apply (insert_keeps_matches [("one cat", "un gato")] "one cat and two"
           "un gato y dos" ["one"; "cat"; "and"; "two"] 0 2 (Some "un gato")).
  reflexivity.
Defined.
